(** * L5 substitution ADT (src/L5/L5-substitution-adt.ts)

    A shallow embedding of the substitution algebra used by the L5 type
    inference engine, and the properties its specification states about it.

    Layout: type expressions and results, then the operations of the module
    in the order of the source file, then depth-budgeted variants used for the
    termination statement, then the lemmas and theorems. *)

From Stdlib Require Import List String Bool Arith Lia.
Import ListNotations.
Local Open Scope string_scope.

(* ================================================================== *)
(** ** Type expressions (module ./TExp) *)

(** Modelled from the spec: [TVar] of ./TExp, "Variable(name) - leaf;
    identity compared by name equality". The source reads the field [var]. *)
Record TVar : Type := makeTVar { var : string }.

(** Modelled from the spec: the union [TExp] of ./TExp, "a closed, tagged
    union of variants - Atomic, Variable, Procedure". The source also has a
    branch for a value that is none of the three; [BadTExp] stands for such a
    value, [shape] telling which one it is. *)
#[local] Unset Elimination Schemes.
Inductive TExp : Type :=
| AtomicTExp (name : string)
| TVarE (v : TVar)
| ProcTExp (paramTEs : list TExp) (returnTE : TExp)
| BadTExp (shape : string).
#[local] Set Elimination Schemes.

(** Modelled from the spec: [makeProcTExp] of ./TExp builds the Procedure
    variant from its parameters and return type. *)
Definition makeProcTExp (paramTEs : list TExp) (returnTE : TExp) : TExp :=
  ProcTExp paramTEs returnTE.

(** Modelled from the spec: [eqTVar] of ./TExp, name equality. *)
Definition eqTVar (tv1 tv2 : TVar) : bool := String.eqb (var tv1) (var tv2).

(** Modelled from the spec: [isTVar] of ./TExp, the predicate of the
    Variable variant. *)
Definition isTVar (x : TExp) : bool :=
  match x with TVarE _ => true | _ => false end.

(** Modelled from the spec: [isAtomicTExp] of ./TExp, the predicate of the
    Atomic variant. *)
Definition isAtomicTExp (x : TExp) : bool :=
  match x with AtomicTExp _ => true | _ => false end.

(** Modelled from the spec: [isProcTExp] of ./TExp, the predicate of the
    Procedure variant. *)
Definition isProcTExp (x : TExp) : bool :=
  match x with ProcTExp _ _ => true | _ => false end.

(** Structural induction that also covers the parameters of a procedure. *)
Section TExp_induction.
Variable P : TExp -> Prop.
Hypothesis HAtomic : forall name, P (AtomicTExp name).
Hypothesis HTVar : forall v, P (TVarE v).
Hypothesis HProc : forall ps r, Forall P ps -> P r -> P (ProcTExp ps r).
Hypothesis HBad : forall shape, P (BadTExp shape).

Fixpoint TExp_nested_ind (te : TExp) : P te :=
  match te with
  | AtomicTExp name => HAtomic name
  | TVarE v => HTVar v
  | ProcTExp ps r =>
      HProc ps r
        ((fix params (l : list TExp) : Forall P l :=
            match l with
            | [] => Forall_nil P
            | x :: l' => Forall_cons x (TExp_nested_ind x) (params l')
            end) ps)
        (TExp_nested_ind r)
  | BadTExp shape => HBad shape
  end.
End TExp_induction.

(** Depth of the expression tree, a leaf having depth 0. *)
Fixpoint depth (te : TExp) : nat :=
  match te with
  | ProcTExp ps r => S (fold_right (fun p m => Nat.max (depth p) m) (depth r) ps)
  | _ => 0
  end.

(** [occurs x te]: the variable named [x] occurs in [te]. *)
Fixpoint occurs (x : string) (te : TExp) : bool :=
  match te with
  | TVarE v => String.eqb (var v) x
  | ProcTExp ps r => existsb (occurs x) ps || occurs x r
  | _ => false
  end.

(** A well-formed type expression is built from the three variants only. *)
Fixpoint wfTExp (te : TExp) : bool :=
  match te with
  | ProcTExp ps r => forallb wfTExp ps && wfTExp r
  | BadTExp _ => false
  | _ => true
  end.

(* ================================================================== *)
(** ** Lists (module ../shared/list) *)

(** The source views a sequence by its head and tail. It reads
    [first(vars)] only after [isEmpty(vars)] has answered false, but it reads
    [first(tes)] and [tes[0]] unguarded, and reading the head of an empty
    array gives the JavaScript value undefined. *)

(** Modelled from the spec: the value undefined, which is none of the three
    variants; the variant predicates, which are not part of the file, are
    taken to answer false on it. It is met only when [tes] is shorter than
    [vars], which invariant B (arity) excludes. *)
Definition undefinedTE : TExp := BadTExp "undefined".

(** Modelled from the spec: [isEmpty] of ../shared/list, the test for the
    empty sequence. *)
Definition isEmpty {A : Type} (x : list A) : bool :=
  match x with [] => true | _ :: _ => false end.

(** Modelled from the spec: [first] of ../shared/list, the head of a
    sequence, here of expressions. *)
Definition first (x : list TExp) : TExp := hd undefinedTE x.

(** Modelled from the spec: [rest] of ../shared/list, the tail of a
    sequence; the tail of the empty sequence is empty. *)
Definition rest {A : Type} (x : list A) : list A := tl x.

(* ================================================================== *)
(** ** Results (module ../shared/result) *)

(** The two failure messages the module builds, by their content: the
    occur-check message is made of the variable name and the whole
    expression (printed by [unparseTExp] in the source), the bad-expression
    message of the offending sub-expression and the whole expression. *)
Inductive Message : Type :=
| OccurCheckError (tvar : string) (te : TExp)
| BadTypeExpression (e te : TExp).

(** Modelled from the spec: [Result] of ../shared/result, "every fallible
    operation returns an explicit success/failure result". *)
Inductive Result (A : Type) : Type :=
| Ok (value : A)
| Failure (message : Message).
Arguments Ok {A} value.
Arguments Failure {A} message.

(** Modelled from the spec: [makeOk] of ../shared/result, the success. *)
Definition makeOk {A : Type} (value : A) : Result A := Ok value.

(** Modelled from the spec: [makeFailure] of ../shared/result, the failure
    with its message. *)
Definition makeFailure {A : Type} (message : Message) : Result A :=
  Failure message.

(** Modelled from the spec: [bind] of ../shared/result, "a failure always
    surfaces to the immediate caller": the continuation runs on a success
    only. *)
Definition bind {A B : Type} (r : Result A) (f : A -> Result B) : Result B :=
  match r with
  | Ok value => f value
  | Failure message => Failure message
  end.

Section mapResult.
Context {A B : Type} (f : A -> Result B).
(** Modelled from the spec: [mapResult] of ../shared/result, the results of
    [f] on the elements, "short-circuits on first failure, left-to-right". *)
Fixpoint mapResult (l : list A) : Result (list B) :=
  match l with
  | [] => makeOk []
  | x :: l' =>
      bind (f x) (fun fa =>
      bind (mapResult l') (fun fas => makeOk (fa :: fas)))
  end.
End mapResult.

Definition isOk {A : Type} (r : Result A) : bool :=
  match r with Ok _ => true | Failure _ => false end.

(** A failure reported by the occur check, as opposed to a bad expression. *)
Definition isCircular {A : Type} (r : Result A) : bool :=
  match r with Failure (OccurCheckError _ _) => true | _ => false end.

(* ================================================================== *)
(** ** The substitution ADT *)

Record Sub : Type := mkSub { vars : list TVar; tes : list TExp }.

Definition makeEmptySub : Sub := mkSub [] [].

(** [check] is the local function of [checkNoOccurrence]; [tvar] and [te]
    are the variables it closes over. The branches are the tests [isTVar],
    [isAtomicTExp] and [isProcTExp] of the source, in its order, and its
    last alternative. The result type of the source is [Result<true>], one
    value on success. *)
Fixpoint check (tvar : TVar) (te : TExp) (e : TExp) : Result unit :=
  match e with
  | TVarE v =>
      if String.eqb (var v) (var tvar)
      then makeFailure (OccurCheckError (var tvar) te)
      else makeOk tt
  | AtomicTExp _ => makeOk tt
  | ProcTExp paramTEs returnTE =>
      bind (mapResult (check tvar te) paramTEs) (fun _ => check tvar te returnTE)
  | BadTExp _ => makeFailure (BadTypeExpression e te)
  end.

Definition checkNoOccurrence (tvar : TVar) (te : TExp) : Result unit :=
  check tvar te te.

Fixpoint checkNoOccurrences (vars : list TVar) (tes : list TExp) : Result unit :=
  match vars with
  | [] => makeOk tt
  | v :: vars' =>
      bind (checkNoOccurrence v (first tes))
           (fun _ => checkNoOccurrences vars' (rest tes))
  end.

Definition makeSub (vars : list TVar) (tes : list TExp) : Result Sub :=
  bind (checkNoOccurrences vars tes) (fun _ => makeOk (mkSub vars tes)).

(** [isSub] holds of every value of type [Sub]. *)
Definition isEmptySub (sub : Sub) : bool :=
  isEmpty (vars sub) && isEmpty (tes sub).

(** [lookup] is the local function of [subGet], closing over [v]. *)
Fixpoint lookup (v : TVar) (vars : list TVar) (tes : list TExp) : TExp :=
  match vars with
  | [] => TVarE v
  | x :: vars' =>
      if eqTVar x v then first tes else lookup v vars' (rest tes)
  end.

Definition subGet (sub : Sub) (v : TVar) : TExp :=
  lookup v (vars sub) (tes sub).

(** After the test for the empty substitution the branches are the tests
    [isAtomicTExp], [isTVar] and [isProcTExp] of the source and its last
    alternative; [curry(applySub)(sub)] is the partial application. *)
Fixpoint applySub (sub : Sub) (te : TExp) : TExp :=
  if isEmptySub sub then te else
  match te with
  | AtomicTExp _ => te
  | TVarE v => subGet sub v
  | ProcTExp paramTEs returnTE =>
      makeProcTExp (map (applySub sub) paramTEs) (applySub sub returnTE)
  | BadTExp _ => te
  end.

(** [Array.prototype.includes] on the names of the variables. *)
Definition includes (names : list string) (x : string) : bool :=
  existsb (String.eqb x) names.

Definition extendSub (sub : Sub) (v : TVar) (te : TExp) : Result Sub :=
  bind (makeSub [v] [te]) (fun sub2 =>
    let updatedTEs := map (applySub sub2) (tes sub) in
    if includes (map var (vars sub)) (var v)
    then makeSub (vars sub) updatedTEs
    else makeSub ([v] ++ vars sub) ([te] ++ updatedTEs)).

Fixpoint combine (sub : Sub) (vars : list TVar) (tes : list TExp) : Result Sub :=
  match vars with
  | [] => makeOk sub
  | v :: vars' =>
      bind (extendSub sub v (first tes))
           (fun extSub => combine extSub vars' (rest tes))
  end.

Definition combineSub (sub1 sub2 : Sub) : Result Sub :=
  if isEmptySub sub1 then makeOk sub2
  else if isEmptySub sub2 then makeOk sub1
  else combine sub1 (vars sub2) (tes sub2).

(* ================================================================== *)
(** ** Depth-budgeted evaluation

    Each recursive function of the module is given a variant with a budget
    [n] on the depth of its own recursion: a call that would nest deeper
    than [n] activations yields [None]. The functions it calls are the ones
    above. These variants state how deep the recursion of the source goes. *)

Definition bindD {A B : Type} (r : option (Result A))
    (f : A -> option (Result B)) : option (Result B) :=
  match r with
  | None => None
  | Some (Failure message) => Some (Failure message)
  | Some (Ok value) => f value
  end.

Section mapD.
Context {A B : Type}.
Fixpoint mapResultD (f : A -> option (Result B)) (l : list A)
    : option (Result (list B)) :=
  match l with
  | [] => Some (makeOk [])
  | x :: l' =>
      bindD (f x) (fun fa =>
      bindD (mapResultD f l') (fun fas => Some (makeOk (fa :: fas))))
  end.

Fixpoint mapD (f : A -> option B) (l : list A) : option (list B) :=
  match l with
  | [] => Some []
  | x :: l' =>
      match f x, mapD f l' with
      | Some y, Some ys => Some (y :: ys)
      | _, _ => None
      end
  end.
End mapD.

Fixpoint checkD (n : nat) (tvar : TVar) (te : TExp) (e : TExp)
    : option (Result unit) :=
  match n with
  | 0 => None
  | S n' =>
      match e with
      | TVarE v =>
          Some (if String.eqb (var v) (var tvar)
                then makeFailure (OccurCheckError (var tvar) te)
                else makeOk tt)
      | AtomicTExp _ => Some (makeOk tt)
      | ProcTExp paramTEs returnTE =>
          bindD (mapResultD (checkD n' tvar te) paramTEs)
                (fun _ => checkD n' tvar te returnTE)
      | BadTExp _ => Some (makeFailure (BadTypeExpression e te))
      end
  end.

Fixpoint checkNoOccurrencesD (n : nat) (vars : list TVar) (tes : list TExp)
    : option (Result unit) :=
  match n with
  | 0 => None
  | S n' =>
      match vars with
      | [] => Some (makeOk tt)
      | v :: vars' =>
          bindD (Some (checkNoOccurrence v (first tes)))
                (fun _ => checkNoOccurrencesD n' vars' (rest tes))
      end
  end.

Fixpoint lookupD (n : nat) (v : TVar) (vars : list TVar) (tes : list TExp)
    : option TExp :=
  match n with
  | 0 => None
  | S n' =>
      match vars with
      | [] => Some (TVarE v)
      | x :: vars' =>
          if eqTVar x v then Some (first tes) else lookupD n' v vars' (rest tes)
      end
  end.

Fixpoint applySubD (n : nat) (sub : Sub) (te : TExp) : option TExp :=
  match n with
  | 0 => None
  | S n' =>
      if isEmptySub sub then Some te else
      match te with
      | AtomicTExp _ => Some te
      | TVarE v => Some (subGet sub v)
      | ProcTExp paramTEs returnTE =>
          match mapD (applySubD n' sub) paramTEs, applySubD n' sub returnTE with
          | Some ps, Some r => Some (makeProcTExp ps r)
          | _, _ => None
          end
      | BadTExp _ => Some te
      end
  end.

Fixpoint combineD (n : nat) (sub : Sub) (vars : list TVar) (tes : list TExp)
    : option (Result Sub) :=
  match n with
  | 0 => None
  | S n' =>
      match vars with
      | [] => Some (makeOk sub)
      | v :: vars' =>
          bindD (Some (extendSub sub v (first tes)))
                (fun extSub => combineD n' extSub vars' (rest tes))
      end
  end.

(* ================================================================== *)
(** ** Notions used by the statements *)

(** The homomorphic extension of a map from variables to expressions. *)
Fixpoint tsubst (f : TVar -> TExp) (te : TExp) : TExp :=
  match te with
  | TVarE v => f v
  | ProcTExp ps r => ProcTExp (map (tsubst f) ps) (tsubst f r)
  | _ => te
  end.

(** The singleton substitution [{v |-> e}] that [extendSub] builds. *)
Definition single (v : TVar) (e : TExp) : Sub := mkSub [v] [e].

Definition names (sub : Sub) : list string := map var (vars sub).
Definition bindings (sub : Sub) : list (TVar * TExp) :=
  List.combine (vars sub) (tes sub).

(** Invariant A (uniqueness), B (arity) and C (acyclicity) of a substitution. *)
Definition invA (sub : Sub) : Prop := NoDup (names sub).
Definition invB (sub : Sub) : Prop :=
  List.length (vars sub) = List.length (tes sub).
Definition invC (sub : Sub) : Prop :=
  forall x t, In (x, t) (bindings sub) -> occurs (var x) t = false.

(** Every right-hand side is a well-formed type expression. *)
Definition wfSub (sub : Sub) : Prop :=
  forall t, In t (tes sub) -> wfTExp t = true.

(** No variable of [xs] occurs in [e]. *)
Definition avoids (xs : list string) (e : TExp) : Prop :=
  forall x, In x xs -> occurs x e = false.

(** No variable bound by the substitution occurs in one of its right-hand
    sides: one application of it reaches the fixed point. *)
Definition normalized (sub : Sub) : Prop :=
  forall t, In t (tes sub) -> avoids (names sub) t.

(** The bindings applied one after the other, in the stored order. *)
Fixpoint applySeq (vars : list TVar) (tes : list TExp) (te : TExp) : TExp :=
  match vars with
  | [] => te
  | v :: vars' => applySeq vars' (rest tes) (applySub (single v (first tes)) te)
  end.

(** Some variable of [xs] occurs in the expression at its own position. *)
Definition selfOccurs (xs : list TVar) (ts : list TExp) : bool :=
  existsb (fun b => occurs (var (fst b)) (snd b)) (List.combine xs ts).

(** A substitution obtained from the empty one by successful extensions. *)
Inductive built : Sub -> Prop :=
| built_empty : built makeEmptySub
| built_extend sub v e sub' :
    built sub -> extendSub sub v e = Ok sub' -> built sub'.

(* ================================================================== *)
(** ** Values used in the examples *)

Definition tv (name : string) : TExp := TVarE (makeTVar name).
Definition numTE : TExp := AtomicTExp "number".
Definition boolTE : TExp := AtomicTExp "boolean".

(** [{x |-> v}] *)
Definition sub_x_v : Sub := mkSub [makeTVar "x"] [tv "v"].
(** [{z |-> number}] and its extension by [(y, z)] *)
Definition sub_z : Sub := mkSub [makeTVar "z"] [numTE].
Definition sub_y_z : Sub := mkSub [makeTVar "y"; makeTVar "z"] [tv "z"; numTE].
(** [{x |-> (y -> z)}] *)
Definition sub_x : Sub := mkSub [makeTVar "x"] [ProcTExp [tv "y"] (tv "z")].
(** What [combineSub sub_x sub_y_z] returns. *)
Definition sub_z_y_x : Sub :=
  mkSub [makeTVar "z"; makeTVar "y"; makeTVar "x"]
        [numTE; numTE; ProcTExp [numTE] numTE].
(** [{T1 |-> (T2 -> number)}] and its extension by [(T2, boolean)] *)
Definition sub_T1 : Sub := mkSub [makeTVar "T1"] [ProcTExp [tv "T2"] numTE].
Definition sub_T2_T1 : Sub :=
  mkSub [makeTVar "T2"; makeTVar "T1"] [boolTE; ProcTExp [boolTE] numTE].
(** [{a |-> b, b |-> number}] and its extension by [(y, number)] *)
Definition sub_a_b : Sub := mkSub [makeTVar "a"; makeTVar "b"] [tv "b"; numTE].
Definition sub_y_a_b : Sub :=
  mkSub [makeTVar "y"; makeTVar "a"; makeTVar "b"] [numTE; tv "b"; numTE].
(** [((T1 -> number) -> T2)] *)
Definition nestedTE : TExp := ProcTExp [ProcTExp [tv "T1"] numTE] (tv "T2").

(* ================================================================== *)
(** ** Basic facts *)

Lemma eqTVar_true x v : eqTVar x v = true <-> var x = var v.
Proof. unfold eqTVar. apply String.eqb_eq. Qed.

Lemma eqTVar_false x v : eqTVar x v = false <-> var x <> var v.
Proof. unfold eqTVar. apply String.eqb_neq. Qed.

Lemma includes_In l x : includes l x = true <-> In x l.
Proof.
  unfold includes. rewrite existsb_exists. split.
  - intros [y [Hy He]]. apply String.eqb_eq in He. now subst.
  - intros H. exists x. split; [assumption | apply String.eqb_refl].
Qed.

Lemma includes_not_In l x : includes l x = false <-> ~ In x l.
Proof.
  rewrite <- includes_In. destruct (includes l x); split; congruence.
Qed.

Lemma isEmptySub_true sub : isEmptySub sub = true <-> sub = makeEmptySub.
Proof.
  unfold makeEmptySub.
  destruct sub as [[|x xs] [|t ts]]; cbn; split; congruence.
Qed.

Lemma applySub_empty e : applySub makeEmptySub e = e.
Proof. destruct e; reflexivity. Qed.

Lemma applySub_bad sub shape : applySub sub (BadTExp shape) = BadTExp shape.
Proof. cbn. now destruct (isEmptySub sub). Qed.

Lemma makeSub_ok vars tes r :
  makeSub vars tes = Ok r ->
  checkNoOccurrences vars tes = Ok tt /\ r = mkSub vars tes.
Proof.
  unfold makeSub. destruct (checkNoOccurrences vars tes) as [[]|m]; cbn.
  - intros H. injection H as <-. now split.
  - discriminate.
Qed.

Lemma makeSub_failure vars tes m :
  makeSub vars tes = Failure m <-> checkNoOccurrences vars tes = Failure m.
Proof.
  unfold makeSub, makeOk.
  destruct (checkNoOccurrences vars tes) as [[]|m']; cbn; split; congruence.
Qed.

(* ================================================================== *)
(** ** Extension: the shape of the result *)

Lemma extendSub_result sub v e r :
  extendSub sub v e = Ok r ->
  r = if includes (names sub) (var v)
      then mkSub (vars sub) (map (applySub (single v e)) (tes sub))
      else mkSub (v :: vars sub) (e :: map (applySub (single v e)) (tes sub)).
Proof.
  intros H. unfold extendSub in H.
  destruct (makeSub [v] [e]) as [sub2|m] eqn:E2; [|discriminate].
  apply makeSub_ok in E2 as [_ ->]. cbn [bind app] in H.
  fold (single v e) in H. fold (names sub) in H.
  destruct (includes (names sub) (var v));
    now apply makeSub_ok in H as [_ ->].
Qed.

(** C4. When [extendSub sub v e] succeeds, the right-hand sides of [sub] are
    rewritten by the singleton [{v |-> e}]; if the name of [v] is already in
    [sub.vars] the result keeps the variable list of [sub] with the rewritten
    expressions, otherwise [v] and [e] are put in front of them. *)
Theorem extendSub_shape (sub : Sub) (v : TVar) (e : TExp) (r : Sub) :
  extendSub sub v e = Ok r ->
  let updatedTEs := map (applySub (single v e)) (tes sub) in
  (In (var v) (names sub) -> r = mkSub (vars sub) updatedTEs) /\
  (~ In (var v) (names sub) -> r = mkSub (v :: vars sub) (e :: updatedTEs)).
Proof.
  intros H updatedTEs. apply extendSub_result in H. fold updatedTEs in H.
  destruct (includes (names sub) (var v)) eqn:Ei.
  - apply includes_In in Ei. split; [now intros _ | intros Hn; contradiction].
  - apply includes_not_In in Ei.
    split; [intros Hn; contradiction | now intros _].
Qed.

Lemma extendSub_shape_witness :
  extendSub (mkSub [makeTVar "T1"] [TVarE (makeTVar "T2")])
            (makeTVar "T2") (AtomicTExp "number")
  = Ok (mkSub [makeTVar "T2"; makeTVar "T1"]
              [AtomicTExp "number"; AtomicTExp "number"]) /\
  mkSub [makeTVar "T2"; makeTVar "T1"]
        [AtomicTExp "number"; AtomicTExp "number"]
  = mkSub (makeTVar "T2" :: [makeTVar "T1"])
          (AtomicTExp "number"
             :: map (applySub (single (makeTVar "T2") (AtomicTExp "number")))
                    [TVarE (makeTVar "T2")]).
Proof.
  split; [reflexivity|].
  refine (proj2 (extendSub_shape
            (mkSub [makeTVar "T1"] [TVarE (makeTVar "T2")])
            (makeTVar "T2") (AtomicTExp "number") _ eq_refl) _).
  cbn. intros [H|[]]. discriminate.
Defined.

(* ================================================================== *)
(** ** Lookup *)

Lemma lookup_found v : forall xs ts i x,
  nth_error xs i = Some x -> var x = var v ->
  (forall j y, j < i -> nth_error xs j = Some y -> var y <> var v) ->
  lookup v xs ts = nth i ts undefinedTE.
Proof.
  induction xs as [|a xs IH]; intros ts i x Hi Hx Hlt.
  - destruct i; discriminate.
  - destruct i as [|i]; cbn in Hi |- *.
    + injection Hi as ->. apply eqTVar_true in Hx. rewrite Hx.
      now destruct ts.
    + assert (Ha : eqTVar a v = false).
      { apply eqTVar_false. apply (Hlt 0 a); [lia | reflexivity]. }
      rewrite Ha. rewrite (IH (rest ts) i x Hi Hx).
      * now destruct ts; [destruct i|].
      * intros j y Hj Hy. apply (Hlt (S j) y); [lia | exact Hy].
Qed.

Lemma lookup_absent v : forall xs ts,
  (forall x, In x xs -> var x <> var v) -> lookup v xs ts = TVarE v.
Proof.
  induction xs as [|a xs IH]; intros ts H; cbn; [reflexivity|].
  assert (Ha : eqTVar a v = false).
  { apply eqTVar_false. apply H. now left. }
  rewrite Ha. apply IH. intros x Hx. apply H. now right.
Qed.

(** C5. [subGet] is a total function: it returns the expression stored at
    the position of the first variable of [sub.vars] whose name is that of
    [v], and [v] itself when no variable of [sub.vars] has that name. *)
Theorem subGet_total (sub : Sub) (v : TVar) :
  (forall i x,
      nth_error (vars sub) i = Some x -> var x = var v ->
      (forall j y, j < i -> nth_error (vars sub) j = Some y -> var y <> var v) ->
      subGet sub v = nth i (tes sub) undefinedTE /\
      (invB sub -> nth_error (tes sub) i = Some (subGet sub v))) /\
  ((forall x, In x (vars sub) -> var x <> var v) -> subGet sub v = TVarE v).
Proof.
  split.
  - intros i x Hi Hx Hlt.
    assert (E : subGet sub v = nth i (tes sub) undefinedTE)
      by (apply (lookup_found v _ _ i x); assumption).
    split; [exact E|]. intros HB. rewrite E. apply nth_error_nth'.
    rewrite <- HB. apply nth_error_Some. congruence.
  - apply lookup_absent.
Qed.

Lemma subGet_total_witness :
  subGet (mkSub [makeTVar "T1"; makeTVar "T2"]
                [AtomicTExp "number"; AtomicTExp "boolean"]) (makeTVar "T2")
    = AtomicTExp "boolean" /\
  subGet (mkSub [makeTVar "T1"] [AtomicTExp "number"]) (makeTVar "T3")
    = TVarE (makeTVar "T3").
Proof.
  split.
  - refine (proj1 (proj1 (subGet_total
              (mkSub [makeTVar "T1"; makeTVar "T2"]
                     [AtomicTExp "number"; AtomicTExp "boolean"])
              (makeTVar "T2")) 1 (makeTVar "T2") eq_refl eq_refl _)).
    intros j y Hj Hy. destruct j as [|j]; [|lia].
    injection Hy as <-. discriminate.
  - refine (proj2 (subGet_total (mkSub [makeTVar "T1"] [AtomicTExp "number"])
                     (makeTVar "T3")) _).
    intros x [<-|[]]. discriminate.
Defined.

(* ================================================================== *)
(** ** Application *)

(** C6. [applySub] is a homomorphism over the expression tree: the empty
    substitution leaves every expression unchanged, and a non-empty one
    leaves an atomic type unchanged, sends a variable to [subGet] of it and
    maps over the parameters and the return type of a procedure. *)
Theorem applySub_homomorphism :
  (forall e, applySub makeEmptySub e = e) /\
  (forall sub, isEmptySub sub = false ->
     (forall a, applySub sub (AtomicTExp a) = AtomicTExp a) /\
     (forall v, applySub sub (TVarE v) = subGet sub v) /\
     (forall ps r, applySub sub (ProcTExp ps r)
                   = ProcTExp (map (applySub sub) ps) (applySub sub r))).
Proof.
  split; [exact applySub_empty|]. intros sub HE.
  repeat split; intros; cbn; rewrite HE; reflexivity.
Qed.

Lemma applySub_homomorphism_witness :
  applySub (mkSub [makeTVar "T1"; makeTVar "T2"]
                  [AtomicTExp "number"; AtomicTExp "boolean"])
           (ProcTExp [TVarE (makeTVar "T1"); TVarE (makeTVar "T2")]
                     (TVarE (makeTVar "T1")))
  = ProcTExp [AtomicTExp "number"; AtomicTExp "boolean"] (AtomicTExp "number").
Proof.
  rewrite (proj2 (proj2 (proj2 applySub_homomorphism
             (mkSub [makeTVar "T1"; makeTVar "T2"]
                    [AtomicTExp "number"; AtomicTExp "boolean"]) eq_refl))).
  reflexivity.
Defined.

(** C10. On a value that is none of the three variants, [applySub] with a
    non-empty substitution falls through and returns the value unchanged,
    while [checkNoOccurrence] fails with the bad-type-expression message. *)
Theorem applySub_fallthrough (sub : Sub) (tvar : TVar) (te : TExp) :
  isEmptySub sub = false ->
  isAtomicTExp te = false -> isTVar te = false -> isProcTExp te = false ->
  applySub sub te = te /\
  checkNoOccurrence tvar te = Failure (BadTypeExpression te te).
Proof.
  intros HE HA HV HP.
  destruct te as [name|v|ps r|shape]; try discriminate.
  split; [|reflexivity]. cbn. now rewrite HE.
Qed.

Lemma applySub_fallthrough_witness :
  applySub (mkSub [makeTVar "T1"] [AtomicTExp "number"]) (BadTExp "TupleTExp")
    = BadTExp "TupleTExp" /\
  checkNoOccurrence (makeTVar "T1") (BadTExp "TupleTExp")
    = Failure (BadTypeExpression (BadTExp "TupleTExp") (BadTExp "TupleTExp")).
Proof.
  exact (applySub_fallthrough (mkSub [makeTVar "T1"] [AtomicTExp "number"])
           (makeTVar "T1") (BadTExp "TupleTExp")
           eq_refl eq_refl eq_refl eq_refl).
Defined.

(* ================================================================== *)
(** ** Composition: the identity law *)

(** C8. If [sub1] is empty, [combineSub] returns [sub2] unchanged; if [sub2]
    is empty it returns [sub1] unchanged; both without error. *)
Theorem combineSub_identity (sub1 sub2 : Sub) :
  (isEmptySub sub1 = true -> combineSub sub1 sub2 = Ok sub2) /\
  (isEmptySub sub2 = true -> combineSub sub1 sub2 = Ok sub1).
Proof.
  unfold combineSub. split; intros H.
  - now rewrite H.
  - rewrite H. destruct (isEmptySub sub1) eqn:E1; [|reflexivity].
    apply isEmptySub_true in H. apply isEmptySub_true in E1. now subst.
Qed.

Lemma combineSub_identity_witness :
  combineSub makeEmptySub (mkSub [makeTVar "T1"] [AtomicTExp "number"])
    = Ok (mkSub [makeTVar "T1"] [AtomicTExp "number"]) /\
  combineSub (mkSub [makeTVar "T1"] [AtomicTExp "number"]) makeEmptySub
    = Ok (mkSub [makeTVar "T1"] [AtomicTExp "number"]).
Proof.
  split.
  - exact (proj1 (combineSub_identity makeEmptySub
                    (mkSub [makeTVar "T1"] [AtomicTExp "number"])) eq_refl).
  - exact (proj2 (combineSub_identity
                    (mkSub [makeTVar "T1"] [AtomicTExp "number"])
                    makeEmptySub) eq_refl).
Defined.

(* ================================================================== *)
(** ** The occur check and occurrence of a variable *)

Lemma mapResult_ok {A B : Type} (f : A -> Result B) : forall l bs,
  mapResult f l = Ok bs -> forall x, In x l -> exists b, f x = Ok b.
Proof.
  induction l as [|a l IH]; intros bs H x Hx; [destruct Hx|].
  cbn in H. destruct (f a) as [b|m] eqn:Ea; [|discriminate].
  cbn in H. destruct (mapResult f l) as [bs'|m] eqn:El; [|discriminate].
  destruct Hx as [<-|Hx]; [now exists b | exact (IH bs' eq_refl x Hx)].
Qed.

(** On a well-formed expression the traversal fails exactly when the
    variable occurs, and then with the occur-check message. *)
Lemma check_wf tvar te e :
  wfTExp e = true ->
  check tvar te e =
    if occurs (var tvar) e
    then Failure (OccurCheckError (var tvar) te) else Ok tt.
Proof.
  induction e as [name|v|ps r IHps IHr|shape] using TExp_nested_ind;
    intros Hwf; cbn in *; try reflexivity; try discriminate.
  apply andb_prop in Hwf as [Hps Hr].
  assert (E : mapResult (check tvar te) ps =
              if existsb (occurs (var tvar)) ps
              then Failure (OccurCheckError (var tvar) te)
              else Ok (map (fun _ => tt) ps)).
  { clear IHr Hr. induction IHps as [|p ps Hp _ IH]; [reflexivity|].
    cbn in Hps |- *. apply andb_prop in Hps as [Hwp Hwps].
    rewrite (Hp Hwp). destruct (occurs (var tvar) p); [reflexivity|].
    cbn. rewrite (IH Hwps).
    now destruct (existsb (occurs (var tvar)) ps). }
  rewrite E. destruct (existsb (occurs (var tvar)) ps); [reflexivity|].
  cbn. exact (IHr Hr).
Qed.

(** A successful traversal has seen a well-formed expression without the
    variable. *)
Lemma check_ok tvar te e :
  check tvar te e = Ok tt -> wfTExp e = true /\ occurs (var tvar) e = false.
Proof.
  induction e as [name|v|ps r IHps IHr|shape] using TExp_nested_ind;
    intros H; cbn in *; try (now split); try discriminate.
  - destruct (String.eqb (var v) (var tvar)); [discriminate | now split].
  - destruct (mapResult (check tvar te) ps) as [us|m] eqn:E; [|discriminate].
    cbn in H. destruct (IHr H) as [Hwr Hor]. rewrite Hwr, Hor.
    rewrite andb_true_r, orb_false_r.
    assert (Hall : forall p, In p ps ->
                     wfTExp p = true /\ occurs (var tvar) p = false).
    { intros p Hp. rewrite Forall_forall in IHps. apply (IHps p Hp).
      destruct (mapResult_ok _ _ _ E p Hp) as [[] Hb]. exact Hb. }
    split.
    + apply forallb_forall. intros p Hp. apply (Hall p Hp).
    + destruct (existsb (occurs (var tvar)) ps) eqn:Ex; [|reflexivity].
      apply existsb_exists in Ex as [p [Hp Ho]].
      destruct (Hall p Hp) as [_ Hf]. congruence.
Qed.

Lemma checkNoOccurrences_wf : forall xs ts,
  List.length xs = List.length ts ->
  (forall t, In t ts -> wfTExp t = true) ->
  checkNoOccurrences xs ts = Ok tt /\ selfOccurs xs ts = false \/
  isCircular (checkNoOccurrences xs ts) = true /\ selfOccurs xs ts = true.
Proof.
  induction xs as [|a xs IH]; intros [|t ts] HL Hwf; try discriminate HL.
  - left. now split.
  - cbn [checkNoOccurrences first rest hd tl]. unfold selfOccurs.
    cbn [List.combine existsb fst snd]. fold (selfOccurs xs ts).
    unfold checkNoOccurrence. rewrite check_wf by (apply Hwf; now left).
    destruct (occurs (var a) t); cbn [bind orb].
    + right. now split.
    + apply IH; [cbn in HL; lia|]. intros t' Ht'. apply Hwf. now right.
Qed.

Lemma makeSub_isCircular xs ts :
  isCircular (makeSub xs ts) = isCircular (checkNoOccurrences xs ts).
Proof.
  unfold makeSub. now destruct (checkNoOccurrences xs ts) as [[]|[]].
Qed.

(* ================================================================== *)
(** ** Construction *)

Lemma checkNoOccurrences_all_ok : forall xs ts,
  List.length xs = List.length ts ->
  (forall i v t, nth_error xs i = Some v -> nth_error ts i = Some t ->
                 checkNoOccurrence v t = Ok tt) ->
  checkNoOccurrences xs ts = Ok tt.
Proof.
  induction xs as [|a xs IH]; intros [|t ts] HL H; try discriminate HL;
    [reflexivity|].
  cbn [checkNoOccurrences first rest hd tl].
  rewrite (H 0 a t eq_refl eq_refl). cbn [bind]. apply IH.
  { cbn in HL. lia. }
  intros i v' t' Hv Ht. exact (H (S i) v' t' Hv Ht).
Qed.

Lemma checkNoOccurrences_first_failure : forall xs ts i v t m,
  nth_error xs i = Some v -> nth_error ts i = Some t ->
  checkNoOccurrence v t = Failure m ->
  (forall j v' t', j < i -> nth_error xs j = Some v' ->
                   nth_error ts j = Some t' -> checkNoOccurrence v' t' = Ok tt) ->
  checkNoOccurrences xs ts = Failure m.
Proof.
  induction xs as [|a xs IH]; intros [|t0 ts] i v t m Hv Ht Hm Hlt;
    destruct i as [|i]; cbn [nth_error] in Hv, Ht; try discriminate;
    cbn [checkNoOccurrences first rest hd tl].
  - injection Hv as ->. injection Ht as ->. now rewrite Hm.
  - rewrite (Hlt 0 a t0); [|lia|reflexivity|reflexivity]. cbn [bind].
    apply (IH ts i v t m Hv Ht Hm).
    intros j v' t' Hj. apply (Hlt (S j)). lia.
Qed.

(** C7. Under the preconditions of [makeSub] (same length, no repeated
    name) the occur check runs pairwise position by position: if every pair
    passes, the result holds the two sequences as given; otherwise the
    failure of the first failing position is returned. A pair with a
    well-formed expression passes exactly when the variable does not occur
    in the expression. The empty sequences always give the empty
    substitution, which is the identity. *)
Theorem makeSub_pairwise :
  (forall vars tes,
     List.length vars = List.length tes ->
     NoDup (map var vars) ->
     ((forall i v t, nth_error vars i = Some v -> nth_error tes i = Some t ->
                     checkNoOccurrence v t = Ok tt) ->
      makeSub vars tes = Ok (mkSub vars tes)) /\
     (forall i v t m,
        nth_error vars i = Some v -> nth_error tes i = Some t ->
        checkNoOccurrence v t = Failure m ->
        (forall j v' t', j < i -> nth_error vars j = Some v' ->
                         nth_error tes j = Some t' ->
                         checkNoOccurrence v' t' = Ok tt) ->
        makeSub vars tes = Failure m)) /\
  (forall v t, wfTExp t = true ->
     (checkNoOccurrence v t = Ok tt <-> occurs (var v) t = false)) /\
  makeSub [] [] = Ok makeEmptySub /\
  (forall e, applySub makeEmptySub e = e).
Proof.
  split; [|split; [|split]].
  - intros xs ts HL _. split.
    + intros H. unfold makeSub.
      now rewrite (checkNoOccurrences_all_ok xs ts HL H).
    + intros i v t m Hv Ht Hm Hlt. apply makeSub_failure.
      exact (checkNoOccurrences_first_failure xs ts i v t m Hv Ht Hm Hlt).
  - intros v t Hwf. unfold checkNoOccurrence. rewrite (check_wf v t t Hwf).
    destruct (occurs (var v) t); split; congruence.
  - reflexivity.
  - exact applySub_empty.
Qed.

Lemma makeSub_pairwise_witness :
  makeSub [makeTVar "x"; makeTVar "y"; makeTVar "z"]
          [AtomicTExp "number"; AtomicTExp "boolean";
           ProcTExp [TVarE (makeTVar "z")] (AtomicTExp "number")]
  = Failure (OccurCheckError "z"
               (ProcTExp [TVarE (makeTVar "z")] (AtomicTExp "number"))).
Proof.
  refine (proj2 (proj1 makeSub_pairwise
            [makeTVar "x"; makeTVar "y"; makeTVar "z"]
            [AtomicTExp "number"; AtomicTExp "boolean";
             ProcTExp [TVarE (makeTVar "z")] (AtomicTExp "number")]
            eq_refl _)
          2 (makeTVar "z") _ _ eq_refl eq_refl eq_refl _).
  - repeat constructor; cbn; intuition discriminate.
  - intros j v' t' Hj Hv Ht.
    destruct j as [|[|j]]; [| |lia]; cbn in Hv, Ht;
      injection Hv as <-; injection Ht as <-; reflexivity.
Defined.

(* ================================================================== *)
(** ** Application as the homomorphic extension of [subGet] *)

Lemma tsubst_id f te : (forall v, f v = TVarE v) -> tsubst f te = te.
Proof.
  intros Hf.
  induction te as [name|v|ps r IHps IHr|shape] using TExp_nested_ind;
    cbn; try reflexivity; [apply Hf|].
  rewrite IHr. f_equal.
  induction IHps as [|p ps Hp _ IH]; [reflexivity|]. cbn. now rewrite Hp, IH.
Qed.

Lemma tsubst_ext f g te :
  (forall v, occurs (var v) te = true -> f v = g v) ->
  tsubst f te = tsubst g te.
Proof.
  induction te as [name|v|ps r IHps IHr|shape] using TExp_nested_ind;
    intros H; cbn in *; try reflexivity.
  - apply H. apply String.eqb_refl.
  - f_equal.
    + induction IHps as [|p ps Hp _ IH]; [reflexivity|]. cbn. f_equal.
      * apply Hp. intros v Hv. apply H. cbn. now rewrite Hv.
      * apply IH. intros v Hv. apply H. cbn in *.
        apply orb_prop in Hv as [Hv|Hv]; rewrite Hv;
          now rewrite ?orb_true_r.
    + apply IHr. intros v Hv. apply H. rewrite Hv. apply orb_true_r.
Qed.

Lemma tsubst_comp f g te :
  tsubst g (tsubst f te) = tsubst (fun v => tsubst g (f v)) te.
Proof.
  induction te as [name|v|ps r IHps IHr|shape] using TExp_nested_ind;
    cbn; try reflexivity.
  rewrite IHr. f_equal. rewrite map_map.
  induction IHps as [|p ps Hp _ IH]; [reflexivity|]. cbn. now rewrite Hp, IH.
Qed.

Lemma applySub_tsubst sub te : applySub sub te = tsubst (subGet sub) te.
Proof.
  destruct (isEmptySub sub) eqn:E.
  - apply isEmptySub_true in E. subst sub. rewrite applySub_empty.
    symmetry. now apply tsubst_id.
  - induction te as [name|v|ps r IHps IHr|shape] using TExp_nested_ind;
      cbn; rewrite E; try reflexivity.
    unfold makeProcTExp. rewrite IHr. f_equal.
    induction IHps as [|p ps Hp _ IH]; [reflexivity|]. cbn. now rewrite Hp, IH.
Qed.

Lemma occurs_tsubst x f te :
  occurs x (tsubst f te) = true <->
  exists v, occurs (var v) te = true /\ occurs x (f v) = true.
Proof.
  induction te as [name|v|ps r IHps IHr|shape] using TExp_nested_ind; cbn.
  - split; [discriminate | intros [v [H _]]; discriminate].
  - split.
    + intros H. exists v. split; [apply String.eqb_refl | exact H].
    + intros [[n] [Hv H]]. destruct v as [m]. cbn in Hv.
      apply String.eqb_eq in Hv. now subst.
  - rewrite orb_true_iff, IHr, existsb_exists. split.
    + intros [[t [Ht Ho]]|[v [Hv Ho]]].
      * apply in_map_iff in Ht as [p [<- Hp]].
        rewrite Forall_forall in IHps. apply (IHps p Hp) in Ho as [v [Hv Ho]].
        exists v. split; [|exact Ho]. apply orb_true_iff. left.
        apply existsb_exists. now exists p.
      * exists v. split; [|exact Ho]. rewrite Hv. apply orb_true_r.
    + intros [v [Hv Ho]]. apply orb_true_iff in Hv as [Hv|Hv].
      * left. apply existsb_exists in Hv as [p [Hp Hv]].
        exists (tsubst f p). split; [now apply in_map|].
        rewrite Forall_forall in IHps. apply (IHps p Hp). now exists v.
      * right. now exists v.
  - split; [discriminate | intros [v [H _]]; discriminate].
Qed.

Lemma wfTExp_tsubst f te :
  (forall v, wfTExp (f v) = true) -> wfTExp te = true ->
  wfTExp (tsubst f te) = true.
Proof.
  intros Hf.
  induction te as [name|v|ps r IHps IHr|shape] using TExp_nested_ind;
    cbn; intros H; try assumption; [apply Hf|].
  apply andb_prop in H as [Hps Hr]. rewrite (IHr Hr), andb_true_r.
  rewrite forallb_forall in *. intros t Ht.
  apply in_map_iff in Ht as [p [<- Hp]].
  rewrite Forall_forall in IHps. apply (IHps p Hp). now apply Hps.
Qed.

(* ================================================================== *)
(** ** Lookup in a rewritten substitution *)

Lemma lookup_map f v : forall xs ts,
  f undefinedTE = undefinedTE ->
  lookup v xs (map f ts) =
    if includes (map var xs) (var v) then f (lookup v xs ts) else TVarE v.
Proof.
  intros xs ts Hf. revert ts.
  induction xs as [|a xs IH]; intros ts; [reflexivity|].
  cbn [lookup map includes existsb]. unfold eqTVar.
  rewrite (String.eqb_sym (var v) (var a)).
  destruct (String.eqb (var a) (var v)); cbn [orb].
  - destruct ts; [symmetry; exact Hf | reflexivity].
  - fold (includes (map var xs) (var v)). rewrite <- IH. now destruct ts.
Qed.

Lemma lookup_cases v : forall xs ts,
  (lookup v xs ts = TVarE v /\ ~ In (var v) (map var xs)) \/
  In (lookup v xs ts) ts \/ lookup v xs ts = undefinedTE.
Proof.
  induction xs as [|a xs IH]; intros ts; cbn.
  - left. split; [reflexivity | tauto].
  - destruct (eqTVar a v) eqn:E.
    + destruct ts as [|t ts]; cbn; [now right; right | right; left; now left].
    + apply eqTVar_false in E.
      destruct (IH (rest ts)) as [[H1 H2]|[H|H]].
      * left. split; [exact H1|]. intros [Hc|Hc]; [congruence | contradiction].
      * right. left. destruct ts as [|t ts]; [destruct H | now right].
      * right. now right.
Qed.

Lemma subGet_single v e y :
  subGet (single v e) y = if eqTVar v y then e else TVarE y.
Proof. reflexivity. Qed.

(** The variables of an expression rewritten by a singleton. *)
Lemma occurs_single x v e t :
  occurs x (applySub (single v e) t) = true <->
  (occurs (var v) t = true /\ occurs x e = true) \/
  (occurs x t = true /\ x <> var v).
Proof.
  rewrite applySub_tsubst, occurs_tsubst. split.
  - intros [y [Hy Ho]]. rewrite subGet_single in Ho.
    destruct (eqTVar v y) eqn:E.
    + apply eqTVar_true in E. left. rewrite E. now split.
    + apply eqTVar_false in E. cbn in Ho. apply String.eqb_eq in Ho.
      subst x. right. split; [exact Hy | congruence].
  - intros [[Hv Ho]|[Ho Hn]].
    + exists v. split; [exact Hv|]. rewrite subGet_single.
      unfold eqTVar. now rewrite String.eqb_refl.
    + exists (makeTVar x). split; [exact Ho|]. rewrite subGet_single.
      destruct (eqTVar v (makeTVar x)) eqn:E.
      * apply eqTVar_true in E. cbn in E. congruence.
      * cbn. apply String.eqb_refl.
Qed.

(** A substitution leaves unchanged an expression without its variables. *)
Lemma applySub_avoids sub t : avoids (names sub) t -> applySub sub t = t.
Proof.
  intros H. rewrite applySub_tsubst.
  rewrite (tsubst_ext (subGet sub) TVarE); [now apply tsubst_id|].
  intros v Hv. apply lookup_absent. intros x Hx Hc.
  assert (Hf : occurs (var v) t = false).
  { apply H. rewrite <- Hc. unfold names. now apply in_map. }
  congruence.
Qed.

(* ================================================================== *)
(** ** Extension composes with the singleton *)

Lemma extendSub_ok_check sub v e r :
  extendSub sub v e = Ok r -> checkNoOccurrence v e = Ok tt.
Proof.
  unfold extendSub, makeSub. cbn [checkNoOccurrences first rest hd tl].
  destruct (checkNoOccurrence v e) as [[]|m]; [reflexivity | discriminate].
Qed.

Lemma extendSub_subGet sub v e r :
  extendSub sub v e = Ok r ->
  forall y, subGet r y = applySub (single v e) (subGet sub y).
Proof.
  intros H y. apply extendSub_result in H.
  assert (Hb : applySub (single v e) undefinedTE = undefinedTE)
    by apply applySub_bad.
  assert (Habs : forall z, includes (names sub) (var z) = false ->
                           subGet sub z = TVarE z).
  { intros z Hi. apply includes_not_In in Hi. apply lookup_absent.
    intros x Hx Hc. apply Hi. rewrite <- Hc. unfold names. now apply in_map. }
  assert (Hsingle : applySub (single v e) (TVarE y)
                    = if eqTVar v y then e else TVarE y)
    by (now rewrite applySub_tsubst).
  destruct (includes (names sub) (var v)) eqn:Ev; subst r.
  - apply includes_In in Ev. unfold subGet at 1. cbn [vars tes].
    rewrite (lookup_map _ _ _ _ Hb). fold (names sub).
    destruct (includes (names sub) (var y)) eqn:Ey; [reflexivity|].
    rewrite (Habs y Ey), Hsingle.
    destruct (eqTVar v y) eqn:E; [|reflexivity].
    apply eqTVar_true in E. apply includes_not_In in Ey. congruence.
  - apply includes_not_In in Ev. unfold subGet at 1.
    cbn [vars tes lookup first rest hd tl].
    destruct (eqTVar v y) eqn:E.
    + apply eqTVar_true in E. rewrite (Habs y).
      * now rewrite Hsingle.
      * apply includes_not_In. congruence.
    + rewrite (lookup_map _ _ _ _ Hb). fold (names sub).
      destruct (includes (names sub) (var y)) eqn:Ey; [reflexivity|].
      now rewrite (Habs y Ey), Hsingle.
Qed.

(** Extending by [(v, e)] is composing with the singleton [{v |-> e}]. *)
Lemma extendSub_applySub sub v e r :
  extendSub sub v e = Ok r ->
  forall t, applySub r t = applySub (single v e) (applySub sub t).
Proof.
  intros H t. rewrite !applySub_tsubst, tsubst_comp.
  apply tsubst_ext. intros y _.
  rewrite <- applySub_tsubst. now apply extendSub_subGet.
Qed.

(** What [combine] computes: the bindings applied one after the other. *)
Lemma combine_applySeq : forall xs ts sub r,
  combine sub xs ts = Ok r ->
  forall t, applySub r t = applySeq xs ts (applySub sub t).
Proof.
  induction xs as [|v xs IH]; intros ts sub r H t; cbn in H |- *.
  - injection H as <-. reflexivity.
  - destruct (extendSub sub v (first ts)) as [ext|m] eqn:E; [|discriminate].
    cbn in H. rewrite (IH _ _ _ H t). f_equal.
    now apply extendSub_applySub.
Qed.

(** One after the other is the same as all at once when no variable of the
    bindings occurs in one of their right-hand sides. *)
Lemma applySeq_applySub : forall xs ts,
  List.length xs = List.length ts ->
  (forall t, In t ts -> avoids (map var xs) t) ->
  forall t, applySeq xs ts t = applySub (mkSub xs ts) t.
Proof.
  induction xs as [|v xs IH]; intros [|e ts] HL Hn t; try discriminate HL.
  - symmetry. apply applySub_empty.
  - cbn [applySeq first rest hd tl]. rewrite IH.
    + rewrite !applySub_tsubst, tsubst_comp. apply tsubst_ext. intros y _.
      rewrite subGet_single. unfold subGet at 2. cbn [vars tes lookup first rest hd tl].
      destruct (eqTVar v y); [|reflexivity].
      rewrite <- applySub_tsubst. apply applySub_avoids.
      intros x Hx. apply (Hn e); [now left | now right].
    + cbn in HL. lia.
    + intros t' Ht' x Hx. apply (Hn t'); now right.
Qed.

(** The composition law, for a second substitution that is normalized. *)
Lemma combineSub_composition sub1 sub2 r :
  invB sub2 -> normalized sub2 ->
  combineSub sub1 sub2 = Ok r ->
  forall t, applySub r t = applySub sub2 (applySub sub1 t).
Proof.
  intros HB HN H t. unfold combineSub in H.
  destruct (isEmptySub sub1) eqn:E1.
  - injection H as <-. apply isEmptySub_true in E1. subst sub1.
    now rewrite applySub_empty.
  - destruct (isEmptySub sub2) eqn:E2.
    + injection H as <-. apply isEmptySub_true in E2. subst sub2.
      now rewrite applySub_empty.
    + rewrite (combine_applySeq _ _ _ _ H t).
      destruct sub2 as [xs ts]. apply applySeq_applySub; assumption.
Qed.

(* ================================================================== *)
(** ** The occur check of an extension *)

Lemma combine_map_r {A B C : Type} (f : B -> C) : forall (xs : list A) ts,
  List.combine xs (map f ts)
  = map (fun b => (fst b, f (snd b))) (List.combine xs ts).
Proof.
  induction xs as [|x xs IH]; intros [|t ts]; cbn; try reflexivity.
  now rewrite IH.
Qed.

Lemma selfOccurs_rewritten (sub : Sub) v e :
  invC sub -> occurs (var v) e = false ->
  selfOccurs (vars sub) (map (applySub (single v e)) (tes sub)) = true <->
  exists x t, In (x, t) (bindings sub) /\
              occurs (var v) t = true /\ occurs (var x) e = true.
Proof.
  intros HC Hv. unfold selfOccurs. rewrite combine_map_r, existsb_exists.
  fold (bindings sub). split.
  - intros [b [Hb Ho]]. apply in_map_iff in Hb as [[x t] [<- Hb]].
    cbn [fst snd] in Ho. apply occurs_single in Ho as [[H1 H2]|[H1 _]].
    + now exists x, t.
    + rewrite (HC x t Hb) in H1. discriminate.
  - intros [x [t [Hb [H1 H2]]]].
    exists (x, applySub (single v e) t). split.
    + apply in_map_iff. now exists (x, t).
    + cbn [fst snd]. apply occurs_single. now left.
Qed.

(** C2, amended. On a substitution that satisfies the arity and acyclicity
    invariants and holds well-formed expressions, and a well-formed [e]:
    [extendSub s v e] fails with the occur-check error exactly when [v]
    occurs in [e], or some binding [x |-> t] of [s] has [v] occurring in [t]
    and [x] occurring in [e]. When [v] occurs in [e] the failure is the one
    of the raw pair [(v, e)], whatever the bindings of [s]. *)
Theorem extendSub_circular_iff (s : Sub) (v : TVar) (e : TExp) :
  invB s -> invC s -> wfSub s -> wfTExp e = true ->
  (occurs (var v) e = true ->
   extendSub s v e = Failure (OccurCheckError (var v) e)) /\
  (isCircular (extendSub s v e) = true <->
   occurs (var v) e = true \/
   exists x t, In (x, t) (bindings s) /\
               occurs (var v) t = true /\ occurs (var x) e = true).
Proof.
  intros HB HC Hwf He.
  assert (E1 : makeSub [v] [e] =
               if occurs (var v) e
               then Failure (OccurCheckError (var v) e)
               else Ok (single v e)).
  { unfold makeSub. cbn [checkNoOccurrences first rest hd tl].
    unfold checkNoOccurrence. rewrite (check_wf v e e He).
    now destruct (occurs (var v) e). }
  unfold extendSub. rewrite E1.
  destruct (occurs (var v) e) eqn:Hv; cbn [bind].
  - split; [reflexivity|]. cbn. split; [now left | reflexivity].
  - split; [discriminate|].
    set (updatedTEs := map (applySub (single v e)) (tes s)).
    assert (HL : List.length (vars s) = List.length updatedTEs)
      by (unfold updatedTEs; rewrite length_map; exact HB).
    assert (HW : forall t, In t updatedTEs -> wfTExp t = true).
    { intros t Ht. apply in_map_iff in Ht as [t0 [<- Ht0]].
      rewrite applySub_tsubst. apply wfTExp_tsubst; [|now apply Hwf].
      intros y. rewrite subGet_single. now destruct (eqTVar v y). }
    assert (HS : isCircular
                   (if includes (map var (vars s)) (var v)
                    then makeSub (vars s) updatedTEs
                    else makeSub ([v] ++ vars s) ([e] ++ updatedTEs))
                 = selfOccurs (vars s) updatedTEs).
    { destruct (includes (map var (vars s)) (var v));
        rewrite makeSub_isCircular.
      - destruct (checkNoOccurrences_wf _ _ HL HW) as [[-> ->]|[-> ->]];
          reflexivity.
      - cbn [app checkNoOccurrences first rest hd tl].
        unfold checkNoOccurrence. rewrite (check_wf v e e He), Hv.
        cbn [bind].
        destruct (checkNoOccurrences_wf _ _ HL HW) as [[-> ->]|[-> ->]];
          reflexivity. }
    rewrite HS. unfold updatedTEs.
    rewrite (selfOccurs_rewritten s v e HC Hv).
    split; [now right | intros [H|H]; [discriminate | exact H]].
Qed.

Lemma extendSub_circular_iff_witness :
  extendSub (mkSub [makeTVar "T1"] [numTE]) (makeTVar "T2")
            (ProcTExp [tv "T2"] numTE)
    = Failure (OccurCheckError "T2" (ProcTExp [tv "T2"] numTE)) /\
  isCircular (extendSub sub_x_v (makeTVar "v") (tv "x")) = true.
Proof.
  split.
  - refine (proj1 (extendSub_circular_iff
              (mkSub [makeTVar "T1"] [numTE]) (makeTVar "T2")
              (ProcTExp [tv "T2"] numTE) eq_refl _ _ eq_refl) eq_refl).
    + intros x t [H|[]]. injection H as <- <-. reflexivity.
    + intros t [<-|[]]. reflexivity.
  - refine (proj2 (proj2 (extendSub_circular_iff sub_x_v (makeTVar "v")
                            (tv "x") eq_refl _ _ eq_refl)) _).
    + intros x t [H|[]]. injection H as <- <-. reflexivity.
    + intros t [<-|[]]. reflexivity.
    + right. exists (makeTVar "x"), (tv "v").
      split; [now left | split; reflexivity].
Defined.

(** C2 as stated fails: the substitution [{x |-> v}] is built by an
    extension of the empty one, satisfies the invariants and is normalized,
    [v] does not occur in the expression [x], and yet
    [extendSub] fails with the occur-check error, raised by the check of the
    rewritten binding [x |-> x]. *)
Lemma extendSub_circular_counterexample :
  built sub_x_v /\
  invA sub_x_v /\ invB sub_x_v /\ invC sub_x_v /\ wfSub sub_x_v /\
  normalized sub_x_v /\ wfTExp (tv "x") = true /\
  extendSub sub_x_v (makeTVar "v") (tv "x")
    = Failure (OccurCheckError "x" (tv "x")) /\
  ~ (isCircular (extendSub sub_x_v (makeTVar "v") (tv "x")) = true <->
     occurs "v" (tv "x") = true).
Proof.
  repeat split.
  - apply (built_extend makeEmptySub (makeTVar "x") (tv "v"));
      [constructor | reflexivity].
  - repeat constructor. cbn. tauto.
  - intros x t [H|[]]. injection H as <- <-. reflexivity.
  - intros t [<-|[]]. reflexivity.
  - intros t [<-|[]] n [<-|[]]. reflexivity.
  - intros [H _]. specialize (H eq_refl). discriminate.
Qed.

(* ================================================================== *)
(** ** Re-application after an extension *)

Lemma applySub_normalized_avoids sub x :
  normalized sub -> avoids (names sub) (applySub sub x).
Proof.
  intros HN n Hn. destruct (occurs n (applySub sub x)) eqn:Ho; [|reflexivity].
  exfalso. rewrite applySub_tsubst in Ho.
  apply occurs_tsubst in Ho as [y [_ Ho]]. unfold subGet in Ho.
  destruct (lookup_cases y (vars sub) (tes sub)) as [[E Hy]|[Hin|E]].
  - rewrite E in Ho. cbn in Ho. apply String.eqb_eq in Ho. subst n.
    exact (Hy Hn).
  - rewrite (HN _ Hin n Hn) in Ho. discriminate.
  - rewrite E in Ho. discriminate.
Qed.

(** C3, amended. Let [s0] satisfy the arity invariant and be normalized (no
    variable it binds occurs in one of its right-hand sides), and let [e]
    contain no variable bound by [s0]. Once [s = extendSub s0 v e] succeeds,
    applying [s] twice is the same as applying it once. *)
Theorem extendSub_idempotent (s0 : Sub) (v : TVar) (e : TExp) (s : Sub) :
  invB s0 -> normalized s0 -> avoids (names s0) e ->
  extendSub s0 v e = Ok s ->
  forall x, applySub s (applySub s x) = applySub s x.
Proof.
  intros _ HN He H x.
  assert (Hv : occurs (var v) e = false).
  { apply extendSub_ok_check in H. now apply check_ok in H. }
  rewrite (extendSub_applySub _ _ _ _ H x).
  set (w := applySub (single v e) (applySub s0 x)).
  assert (H0 : avoids (names s0) w).
  { intros n Hn. destruct (occurs n w) eqn:Ho; [|reflexivity].
    apply occurs_single in Ho as [[_ Ho]|[Ho _]].
    - rewrite (He n Hn) in Ho. discriminate.
    - rewrite (applySub_normalized_avoids s0 x HN n Hn) in Ho. discriminate. }
  assert (H1 : avoids (names (single v e)) w).
  { intros n [<-|[]]. destruct (occurs (var v) w) eqn:Ho; [|reflexivity].
    apply occurs_single in Ho as [[_ Ho]|[_ Ho]]; congruence. }
  rewrite (extendSub_applySub _ _ _ _ H w).
  rewrite (applySub_avoids s0 w H0). now apply applySub_avoids.
Qed.

Lemma extendSub_idempotent_witness :
  extendSub sub_T1 (makeTVar "T2") boolTE = Ok sub_T2_T1 /\
  applySub sub_T2_T1 (applySub sub_T2_T1 nestedTE)
  = applySub sub_T2_T1 nestedTE.
Proof.
  split; [reflexivity|].
  refine (extendSub_idempotent sub_T1 (makeTVar "T2") boolTE sub_T2_T1
            eq_refl _ _ eq_refl nestedTE).
  - intros t [<-|[]] n [<-|[]]. reflexivity.
  - intros n [<-|[]]. reflexivity.
Defined.

(** C3 as stated fails: [{z |-> number}] satisfies the invariants and is
    normalized, its extension by [(y, z)] succeeds with
    [{y |-> z, z |-> number}], and applying the result to [y] gives [z] once
    and [number] twice. *)
Lemma extendSub_idempotent_counterexample :
  built sub_z /\
  invA sub_z /\ invB sub_z /\ invC sub_z /\ wfSub sub_z /\ normalized sub_z /\
  extendSub sub_z (makeTVar "y") (tv "z") = Ok sub_y_z /\
  applySub sub_y_z (tv "y") = tv "z" /\
  applySub sub_y_z (applySub sub_y_z (tv "y")) = numTE /\
  applySub sub_y_z (applySub sub_y_z (tv "y")) <> applySub sub_y_z (tv "y").
Proof.
  repeat split.
  - apply (built_extend makeEmptySub (makeTVar "z") numTE);
      [constructor | reflexivity].
  - repeat constructor. cbn. tauto.
  - intros x t [H|[]]. injection H as <- <-. reflexivity.
  - intros t [<-|[]]. reflexivity.
  - intros t [<-|[]] n [<-|[]]. reflexivity.
  - discriminate.
Qed.

(** The other hypothesis is needed as well: [{a |-> b, b |-> number}] is
    built by extensions and satisfies invariants A, B and C, the expression
    [number] contains none of its variables, and its extension by
    [(y, number)] sends [a] to [b] once and to [number] twice. *)
Lemma extendSub_not_normalized :
  built sub_a_b /\ invA sub_a_b /\ invB sub_a_b /\ invC sub_a_b /\
  avoids (names sub_a_b) numTE /\
  extendSub sub_a_b (makeTVar "y") numTE = Ok sub_y_a_b /\
  applySub sub_y_a_b (tv "a") = tv "b" /\
  applySub sub_y_a_b (applySub sub_y_a_b (tv "a")) = numTE.
Proof.
  repeat split.
  - apply (built_extend (mkSub [makeTVar "b"] [numTE]) (makeTVar "a") (tv "b"));
      [|reflexivity].
    apply (built_extend makeEmptySub (makeTVar "b") numTE);
      [constructor | reflexivity].
  - repeat constructor; cbn; intuition discriminate.
  - intros x t [H|[H|[]]]; injection H as <- <-; reflexivity.
Qed.

(* ================================================================== *)
(** ** Composition on substitutions that are not normalized *)

(** C1. The composition law
    [applySub (combineSub s1 s2) te = applySub s2 (applySub s1 te)] does not
    hold on the code. The substitutions [sub_x = {x |-> (y -> z)}] and
    [sub_y_z = {y |-> z, z |-> number}] are obtained from the empty one by
    successful extensions and satisfy the uniqueness, arity and acyclicity
    invariants; [combineSub sub_x sub_y_z] succeeds, and on the variable [x]
    its result gives [(number -> number)] where applying [sub_x] and then
    [sub_y_z] gives [(z -> number)]. The bindings of the second substitution
    are folded in one at a time, so the binding [z |-> number] also rewrites
    the [z] that [y |-> z] introduced. *)
Theorem combineSub_composition_fails :
  (built sub_x /\ invA sub_x /\ invB sub_x /\ invC sub_x) /\
  (built sub_y_z /\ invA sub_y_z /\ invB sub_y_z /\ invC sub_y_z) /\
  combineSub sub_x sub_y_z = Ok sub_z_y_x /\
  applySub sub_z_y_x (tv "x") = ProcTExp [numTE] numTE /\
  applySub sub_y_z (applySub sub_x (tv "x")) = ProcTExp [tv "z"] numTE /\
  applySub sub_z_y_x (tv "x") <> applySub sub_y_z (applySub sub_x (tv "x")).
Proof.
  repeat split.
  - apply (built_extend makeEmptySub (makeTVar "x")
             (ProcTExp [TVarE (makeTVar "y")] (TVarE (makeTVar "z"))));
      [constructor | reflexivity].
  - repeat constructor. cbn. tauto.
  - intros x t [H|[]]. injection H as <- <-. reflexivity.
  - apply (built_extend (mkSub [makeTVar "z"] [AtomicTExp "number"])
             (makeTVar "y") (TVarE (makeTVar "z"))); [|reflexivity].
    apply (built_extend makeEmptySub (makeTVar "z") (AtomicTExp "number"));
      [constructor | reflexivity].
  - repeat constructor; cbn; intuition discriminate.
  - intros x t [H|[H|[]]]; injection H as <- <-; reflexivity.
  - discriminate.
Qed.

(* ================================================================== *)
(** ** Termination: how deep the recursion goes *)

Lemma depth_params_le d : forall ps p,
  In p ps -> depth p <= fold_right (fun p m => Nat.max (depth p) m) d ps.
Proof.
  induction ps as [|q ps IH]; intros p Hp; [destruct Hp|].
  destruct Hp as [<-|Hp]; cbn; [lia|]. specialize (IH p Hp). lia.
Qed.

Lemma depth_return_le d : forall ps,
  d <= fold_right (fun p m => Nat.max (depth p) m) d ps.
Proof. induction ps as [|q ps IH]; cbn; lia. Qed.

Lemma depth_reached k d : forall ps,
  k <= fold_right (fun p m => Nat.max (depth p) m) d ps ->
  k <= d \/ exists p, In p ps /\ k <= depth p.
Proof.
  induction ps as [|q ps IH]; cbn; intros H; [now left|].
  destruct (Nat.max_spec (depth q)
              (fold_right (fun p m => Nat.max (depth p) m) d ps))
    as [[_ E]|[_ E]]; rewrite E in H.
  - destruct (IH H) as [Hd|[p [Hp Hk]]]; [now left|].
    right. exists p. split; [now right | exact Hk].
  - right. exists q. split; [now left | exact H].
Qed.

Lemma mapResultD_some {A B : Type} (f : A -> option (Result B)) g : forall l,
  (forall x, In x l -> f x = Some (g x)) ->
  mapResultD f l = Some (mapResult g l).
Proof.
  induction l as [|a l IH]; intros H; [reflexivity|]. cbn.
  rewrite (H a) by now left. destruct (g a) as [b|m]; cbn; [|reflexivity].
  rewrite IH by (intros x Hx; apply H; now right).
  now destruct (mapResult g l).
Qed.

Lemma mapD_some {A B : Type} (f : A -> option B) g : forall l,
  (forall x, In x l -> f x = Some (g x)) -> mapD f l = Some (map g l).
Proof.
  induction l as [|a l IH]; intros H; [reflexivity|]. cbn.
  rewrite (H a) by now left.
  now rewrite IH by (intros x Hx; apply H; now right).
Qed.

Lemma mapD_none {A B : Type} (f : A -> option B) : forall l x,
  In x l -> f x = None -> mapD f l = None.
Proof.
  induction l as [|a l IH]; intros x Hx Hn; [destruct Hx|].
  destruct Hx as [<-|Hx]; cbn.
  - now rewrite Hn.
  - rewrite (IH x Hx Hn). now destruct (f a).
Qed.

Lemma checkD_total tvar te : forall e n,
  depth e < n -> checkD n tvar te e = Some (check tvar te e).
Proof.
  induction e as [name|v|ps r IHps IHr|shape] using TExp_nested_ind;
    intros [|n] Hn; try lia; try reflexivity.
  cbn [depth] in Hn. cbn [checkD check].
  rewrite (mapResultD_some _ (check tvar te)).
  - destruct (mapResult (check tvar te) ps); cbn; [|reflexivity].
    apply IHr. pose proof (depth_return_le (depth r) ps). lia.
  - intros p Hp. rewrite Forall_forall in IHps. apply (IHps p Hp).
    pose proof (depth_params_le (depth r) ps p Hp). lia.
Qed.

Lemma mapResultD_sound {A B : Type} (f : A -> option (Result B)) g :
  forall l,
  (forall x, In x l -> f x = None \/ f x = Some (g x)) ->
  mapResultD f l = None \/ mapResultD f l = Some (mapResult g l).
Proof.
  induction l as [|a l IH]; intros H; [now right|]. cbn.
  destruct (H a (or_introl eq_refl)) as [-> | ->]; [now left|].
  destruct (g a) as [b|m]; cbn; [|now right].
  destruct IH as [-> | ->]; [intros x Hx; apply H; now right | now left |].
  right. now destruct (mapResult g l).
Qed.

Lemma mapResultD_ok {A B : Type} (f : A -> option (Result B)) : forall l bs,
  mapResultD f l = Some (Ok bs) ->
  forall x, In x l -> exists b, f x = Some (Ok b).
Proof.
  induction l as [|a l IH]; intros bs H x Hx; [destruct Hx|].
  cbn in H. destruct (f a) as [[b|m]|] eqn:Ea; try discriminate.
  cbn in H. destruct (mapResultD f l) as [[bs'|m]|] eqn:El; try discriminate.
  destruct Hx as [<-|Hx]; [now exists b | exact (IH bs' eq_refl x Hx)].
Qed.

Lemma checkD_sound tvar te : forall n e,
  checkD n tvar te e = None \/ checkD n tvar te e = Some (check tvar te e).
Proof.
  induction n as [|n IH]; intros e; [now left|].
  destruct e as [name|v|ps r|shape]; try (now right).
  cbn [checkD check].
  destruct (mapResultD_sound (checkD n tvar te) (check tvar te) ps)
    as [-> | ->]; [intros x _; apply IH | now left |].
  destruct (mapResult (check tvar te) ps); cbn; [apply IH | now right].
Qed.

(** A traversal that succeeds has visited the whole tree. *)
Lemma checkD_exhausted tvar te : forall n e,
  check tvar te e = Ok tt -> n <= depth e -> checkD n tvar te e = None.
Proof.
  induction n as [|n IH]; intros e Hok Hn; [reflexivity|].
  destruct e as [name|v|ps r|shape]; cbn [depth] in Hn; try lia.
  cbn [checkD]. cbn [check] in Hok.
  destruct (mapResult (check tvar te) ps) as [us|m] eqn:E; [|discriminate].
  cbn [bind] in Hok.
  destruct (mapResultD (checkD n tvar te) ps) as [[us'|m]|] eqn:ED;
    cbn [bindD]; [| |reflexivity].
  - destruct (depth_reached n (depth r) ps) as [Hr|[p [Hp Hk]]]; [lia| |].
    + exact (IH r Hok Hr).
    + destruct (mapResultD_ok _ _ _ ED p Hp) as [b Hb].
      destruct (mapResult_ok _ _ _ E p Hp) as [[] Hc].
      rewrite (IH p Hc Hk) in Hb. discriminate.
  - destruct (mapResultD_sound (checkD n tvar te) (check tvar te) ps)
      as [H|H]; [intros x _; apply checkD_sound | congruence |].
    rewrite ED, E in H. discriminate.
Qed.

Lemma applySubD_total sub : forall te n,
  depth te < n -> applySubD n sub te = Some (applySub sub te).
Proof.
  induction te as [name|v|ps r IHps IHr|shape] using TExp_nested_ind;
    intros [|n] Hn; try lia; cbn [applySubD applySub];
    destruct (isEmptySub sub); try reflexivity.
  cbn [depth] in Hn.
  rewrite (mapD_some _ (applySub sub)).
  - rewrite IHr; [reflexivity|].
    pose proof (depth_return_le (depth r) ps). lia.
  - intros p Hp. rewrite Forall_forall in IHps. apply (IHps p Hp).
    pose proof (depth_params_le (depth r) ps p Hp). lia.
Qed.

Lemma applySubD_exhausted sub :
  isEmptySub sub = false ->
  forall n te, n <= depth te -> applySubD n sub te = None.
Proof.
  intros HE. induction n as [|n IH]; intros te Hn; [reflexivity|].
  destruct te as [name|v|ps r|shape]; cbn [depth] in Hn; try lia.
  cbn [applySubD]. rewrite HE.
  destruct (depth_reached n (depth r) ps) as [Hr|[p [Hp Hk]]]; [lia| |].
  - rewrite (IH r Hr). now destruct (mapD (applySubD n sub) ps).
  - now rewrite (mapD_none _ ps p Hp (IH p Hk)).
Qed.

Lemma checkNoOccurrencesD_total : forall xs ts n,
  List.length xs < n ->
  checkNoOccurrencesD n xs ts = Some (checkNoOccurrences xs ts).
Proof.
  induction xs as [|a xs IH]; intros ts [|n] Hn; cbn in Hn; try lia;
    [reflexivity|].
  cbn [checkNoOccurrencesD checkNoOccurrences bindD].
  destruct (checkNoOccurrence a (first ts)); cbn; [|reflexivity].
  apply IH. lia.
Qed.

Lemma lookupD_total v : forall xs ts n,
  List.length xs < n -> lookupD n v xs ts = Some (lookup v xs ts).
Proof.
  induction xs as [|a xs IH]; intros ts [|n] Hn; cbn in Hn; try lia;
    [reflexivity|].
  cbn [lookupD lookup]. destruct (eqTVar a v); [reflexivity|].
  apply IH. lia.
Qed.

Lemma combineD_total : forall xs ts sub n,
  List.length xs < n -> combineD n sub xs ts = Some (combine sub xs ts).
Proof.
  induction xs as [|a xs IH]; intros ts sub [|n] Hn; cbn in Hn; try lia;
    [reflexivity|].
  cbn [combineD combine bindD].
  destruct (extendSub sub a (first ts)); cbn; [|reflexivity].
  apply IH. lia.
Qed.

(** C9. Every operation terminates: the recursive traversals [check] and
    [applySub] return within a recursion depth of the depth of the
    expression tree (a successful [check], and [applySub] with a non-empty
    substitution, go exactly that deep), and the recursions over the
    sequences ([checkNoOccurrences], [lookup], [combine]) within the length
    of the variable list; [makeSub], [subGet], [extendSub] and [combineSub]
    are finite compositions of these. *)
Theorem recursion_bounded :
  (forall n tvar te e,
      depth e < n -> checkD n tvar te e = Some (check tvar te e)) /\
  (forall n tvar te e,
      check tvar te e = Ok tt -> n <= depth e -> checkD n tvar te e = None) /\
  (forall n sub te,
      depth te < n -> applySubD n sub te = Some (applySub sub te)) /\
  (forall n sub te,
      isEmptySub sub = false -> n <= depth te -> applySubD n sub te = None) /\
  (forall n xs ts,
      List.length xs < n ->
      checkNoOccurrencesD n xs ts = Some (checkNoOccurrences xs ts)) /\
  (forall n v xs ts,
      List.length xs < n -> lookupD n v xs ts = Some (lookup v xs ts)) /\
  (forall n sub xs ts,
      List.length xs < n -> combineD n sub xs ts = Some (combine sub xs ts)).
Proof.
  repeat split; intros.
  - now apply checkD_total.
  - now apply checkD_exhausted.
  - now apply applySubD_total.
  - now apply applySubD_exhausted.
  - now apply checkNoOccurrencesD_total.
  - now apply lookupD_total.
  - now apply combineD_total.
Qed.

Lemma recursion_bounded_witness :
  checkD 3 (makeTVar "T3") nestedTE nestedTE
    = Some (check (makeTVar "T3") nestedTE nestedTE) /\
  checkD 2 (makeTVar "T3") nestedTE nestedTE = None /\
  applySubD 3 sub_T1 nestedTE = Some (applySub sub_T1 nestedTE) /\
  applySubD 2 sub_T1 nestedTE = None /\
  combineD 2 makeEmptySub [makeTVar "T1"] [boolTE]
    = Some (combine makeEmptySub [makeTVar "T1"] [boolTE]).
Proof.
  destruct recursion_bounded as [H1 [H1' [H2 [H3 [_ [_ H6]]]]]].
  split; [|split; [|split; [|split]]].
  - apply H1. cbn. lia.
  - apply H1'; [reflexivity | cbn; lia].
  - apply H2. cbn. lia.
  - apply H3; [reflexivity | cbn; lia].
  - apply H6. cbn. lia.
Defined.

(* ================================================================== *)
(** ** Further properties: the outcomes of the occur check *)




(* ================================================================== *)
(** ** Further properties: what a successful construction guarantees *)

Lemma checkNoOccurrences_ok_pairs : forall xs ts,
  checkNoOccurrences xs ts = Ok tt ->
  forall x t, In (x, t) (List.combine xs ts) -> checkNoOccurrence x t = Ok tt.
Proof.
  induction xs as [|a xs IH]; intros [|t0 ts] H x t Hin;
    try (now destruct Hin).
  cbn [checkNoOccurrences first rest hd tl] in H.
  destruct (checkNoOccurrence a t0) as [[]|m] eqn:E; [|discriminate].
  cbn [bind] in H. destruct Hin as [Hin|Hin].
  - injection Hin as <- <-. exact E.
  - exact (IH ts H x t Hin).
Qed.

Lemma checkNoOccurrences_pairs_ok : forall xs ts,
  List.length xs = List.length ts ->
  (forall x t, In (x, t) (List.combine xs ts) ->
               checkNoOccurrence x t = Ok tt) ->
  checkNoOccurrences xs ts = Ok tt.
Proof.
  induction xs as [|a xs IH]; intros [|t0 ts] HL H; try discriminate HL;
    [reflexivity|].
  cbn [checkNoOccurrences first rest hd tl].
  rewrite (H a t0) by now left. cbn [bind]. apply IH.
  - cbn in HL. lia.
  - intros x t Hin. apply H. now right.
Qed.

Lemma in_combine_r_exists {A B : Type} : forall (xs : list A) (ts : list B) t,
  List.length xs = List.length ts -> In t ts ->
  exists x, In (x, t) (List.combine xs ts).
Proof.
  induction xs as [|a xs IH]; intros [|t0 ts] t HL Hin;
    try discriminate HL; [destruct Hin|].
  destruct Hin as [<-|Hin].
  - exists a. now left.
  - destruct (IH ts t) as [x Hx]; [cbn in HL; lia | exact Hin |].
    exists x. now right.
Qed.

(** X2. On sequences of the same length [makeSub] succeeds, with the two
    sequences as given, exactly when every binding pairs a variable with a
    well-formed expression in which that variable does not occur. *)
Theorem makeSub_succeeds_iff (xs : list TVar) (ts : list TExp) :
  List.length xs = List.length ts ->
  (makeSub xs ts = Ok (mkSub xs ts) <->
   forall x t, In (x, t) (List.combine xs ts) ->
               wfTExp t = true /\ occurs (var x) t = false).
Proof.
  intros HL. split.
  - intros H x t Hin. apply makeSub_ok in H as [H _].
    apply (check_ok x t t). exact (checkNoOccurrences_ok_pairs xs ts H x t Hin).
  - intros H. unfold makeSub. rewrite checkNoOccurrences_pairs_ok;
      [reflexivity | exact HL |].
    intros x t Hin. destruct (H x t Hin) as [Hw Ho].
    unfold checkNoOccurrence. now rewrite (check_wf x t t Hw), Ho.
Qed.

Lemma makeSub_succeeds_iff_witness :
  makeSub [makeTVar "T1"; makeTVar "T2"] [numTE; ProcTExp [tv "T1"] boolTE]
  = Ok (mkSub [makeTVar "T1"; makeTVar "T2"]
              [numTE; ProcTExp [tv "T1"] boolTE]).
Proof.
  refine (proj2 (makeSub_succeeds_iff [makeTVar "T1"; makeTVar "T2"]
                   [numTE; ProcTExp [tv "T1"] boolTE] eq_refl) _).
  intros x t [H|[H|[]]]; injection H as <- <-; split; reflexivity.
Defined.

Lemma checkNoOccurrences_surplus : forall xs ts extra,
  List.length xs = List.length ts ->
  checkNoOccurrences xs (ts ++ extra) = checkNoOccurrences xs ts.
Proof.
  induction xs as [|a xs IH]; intros [|t0 ts] extra HL; try discriminate HL;
    [reflexivity|].
  cbn [app checkNoOccurrences first rest hd tl].
  rewrite IH; [reflexivity | cbn in HL; lia].
Qed.

(** X3. [makeSub] does not check that the sequences have the same length:
    expressions beyond the last variable are not examined, so when the
    paired part is accepted the surplus is stored as given, whatever it
    holds, and the result breaks the arity invariant. *)
Theorem makeSub_surplus (xs : list TVar) (ts extra : list TExp) :
  List.length xs = List.length ts ->
  makeSub xs ts = Ok (mkSub xs ts) ->
  makeSub xs (ts ++ extra) = Ok (mkSub xs (ts ++ extra)) /\
  (extra <> [] -> ~ invB (mkSub xs (ts ++ extra))).
Proof.
  intros HL H. split.
  - apply makeSub_ok in H as [H _]. unfold makeSub.
    now rewrite (checkNoOccurrences_surplus xs ts extra HL), H.
  - intros Hne HB. unfold invB in HB. cbn [vars tes] in HB.
    rewrite length_app in HB. destruct extra; [congruence | cbn in HB; lia].
Qed.

Lemma makeSub_surplus_witness :
  makeSub [makeTVar "T1"] ([numTE] ++ [BadTExp "TupleTExp"])
  = Ok (mkSub [makeTVar "T1"] ([numTE] ++ [BadTExp "TupleTExp"])).
Proof.
  exact (proj1 (makeSub_surplus [makeTVar "T1"] [numTE] [BadTExp "TupleTExp"]
                  eq_refl eq_refl)).
Defined.

(* ================================================================== *)
(** ** Further properties: application *)

Lemma lookup_bound v : forall xs ts,
  List.length xs = List.length ts ->
  In (var v) (map var xs) ->
  exists x, In (x, lookup v xs ts) (List.combine xs ts) /\ var x = var v.
Proof.
  induction xs as [|a xs IH]; intros [|t0 ts] HL Hin; try discriminate HL;
    [destruct Hin|].
  cbn [lookup first rest hd tl]. destruct (eqTVar a v) eqn:E.
  - apply eqTVar_true in E. exists a. split; [now left | exact E].
  - apply eqTVar_false in E. destruct Hin as [Hin|Hin]; [congruence|].
    destruct (IH ts) as [x [Hx Hv]]; [cbn in HL; lia | exact Hin |].
    exists x. split; [now right | exact Hv].
Qed.

Lemma subGet_cases sub v :
  invB sub ->
  (subGet sub v = TVarE v /\ ~ In (var v) (names sub)) \/
  (exists x, In (x, subGet sub v) (bindings sub) /\ var x = var v).
Proof.
  intros HB. destruct (in_dec string_dec (var v) (names sub)) as [Hin|Hn].
  - right. exact (lookup_bound v _ _ HB Hin).
  - left. split; [|exact Hn]. apply lookup_absent. intros x Hx Hc.
    apply Hn. rewrite <- Hc. unfold names. now apply in_map.
Qed.

(** X4. A substitution leaves unchanged every expression in which none of
    its variables occurs. *)
Theorem applySub_unchanged (sub : Sub) (te : TExp) :
  avoids (names sub) te -> applySub sub te = te.
Proof. apply applySub_avoids. Qed.

Lemma applySub_unchanged_witness :
  applySub sub_T1 (ProcTExp [tv "T2"; numTE] (tv "T3"))
  = ProcTExp [tv "T2"; numTE] (tv "T3").
Proof.
  apply (applySub_unchanged sub_T1 (ProcTExp [tv "T2"; numTE] (tv "T3"))).
  intros x [<-|[]]. reflexivity.
Defined.

(** X5. Applying a substitution that satisfies the arity invariant and
    holds well-formed expressions to a well-formed expression gives a
    well-formed expression. *)
Theorem applySub_wf (sub : Sub) (te : TExp) :
  invB sub -> wfSub sub -> wfTExp te = true ->
  wfTExp (applySub sub te) = true.
Proof.
  intros HB HW Hte. rewrite applySub_tsubst.
  apply wfTExp_tsubst; [|exact Hte]. intros v.
  destruct (subGet_cases sub v HB) as [[-> _]|[x [Hx _]]]; [reflexivity|].
  apply HW. unfold bindings in Hx. now apply in_combine_r in Hx.
Qed.

Lemma applySub_wf_witness :
  wfTExp (applySub sub_T1 nestedTE) = true.
Proof.
  apply (applySub_wf sub_T1 nestedTE eq_refl); [|reflexivity].
  intros t [<-|[]]. reflexivity.
Defined.

(** X6. Application introduces no variable of its own: a variable of the
    result is a variable of the argument that the substitution does not
    bind, or a variable of one of its right-hand sides. *)
Theorem applySub_variables (sub : Sub) (te : TExp) (x : string) :
  invB sub ->
  occurs x (applySub sub te) = true ->
  (occurs x te = true /\ ~ In x (names sub)) \/
  (exists t, In t (tes sub) /\ occurs x t = true).
Proof.
  intros HB Ho. rewrite applySub_tsubst in Ho.
  apply occurs_tsubst in Ho as [y [Hy Ho]].
  destruct (subGet_cases sub y HB) as [[E Hn]|[z [Hz _]]].
  - rewrite E in Ho. cbn in Ho. apply String.eqb_eq in Ho. subst x.
    left. now split.
  - right. exists (subGet sub y). split; [|exact Ho].
    unfold bindings in Hz. now apply in_combine_r in Hz.
Qed.

Lemma applySub_variables_witness :
  (occurs "T2" nestedTE = true /\ ~ In "T2" (names sub_T1)) \/
  (exists t, In t (tes sub_T1) /\ occurs "T2" t = true).
Proof.
  exact (applySub_variables sub_T1 nestedTE "T2" eq_refl eq_refl).
Defined.

(** X7. A substitution that satisfies the arity invariant and in which no
    bound variable occurs in a right-hand side is idempotent: applying it
    twice is applying it once. *)
Theorem normalized_idempotent (sub : Sub) (te : TExp) :
  invB sub -> normalized sub ->
  applySub sub (applySub sub te) = applySub sub te.
Proof.
  intros _ HN. apply applySub_avoids. now apply applySub_normalized_avoids.
Qed.

Lemma normalized_idempotent_witness :
  applySub sub_T2_T1 (applySub sub_T2_T1 nestedTE) = applySub sub_T2_T1 nestedTE.
Proof.
  apply (normalized_idempotent sub_T2_T1 nestedTE eq_refl).
  intros t [<-|[<-|[]]] n [<-|[<-|[]]]; reflexivity.
Defined.

(** X8. Rewriting by the singleton [{v |-> e}] removes [v]: when [v] does
    not occur in [e], it does not occur in any rewritten expression. *)
Theorem single_eliminates (v : TVar) (e t : TExp) :
  occurs (var v) e = false ->
  occurs (var v) (applySub (single v e) t) = false.
Proof.
  intros Hv. destruct (occurs (var v) (applySub (single v e) t)) eqn:Ho;
    [|reflexivity].
  apply occurs_single in Ho as [[_ Ho]|[_ Ho]]; congruence.
Qed.

Lemma single_eliminates_witness :
  occurs "T1" (applySub (single (makeTVar "T1") (ProcTExp [tv "T2"] numTE))
                        nestedTE) = false.
Proof.
  exact (single_eliminates (makeTVar "T1") (ProcTExp [tv "T2"] numTE)
           nestedTE eq_refl).
Defined.

(* ================================================================== *)
(** ** Further properties: extension *)

Lemma extendSub_ok_checked sub v e r :
  extendSub sub v e = Ok r -> checkNoOccurrences (vars r) (tes r) = Ok tt.
Proof.
  intros H. unfold extendSub in H.
  destruct (makeSub [v] [e]) as [sub2|m]; [|discriminate]. cbn [bind] in H.
  destruct (includes (map var (vars sub)) (var v));
    now apply makeSub_ok in H as [H ->].
Qed.

Lemma extendSub_names sub v e r :
  extendSub sub v e = Ok r ->
  names r = if includes (names sub) (var v) then names sub
            else var v :: names sub.
Proof.
  intros H. apply extendSub_result in H. subst r.
  now destruct (includes (names sub) (var v)).
Qed.

(** X9. A successful extension applies like the old substitution followed
    by the singleton [{v |-> e}], on every expression. *)
Theorem extendSub_composes (sub : Sub) (v : TVar) (e : TExp) (r : Sub) :
  extendSub sub v e = Ok r ->
  forall te, applySub r te = applySub (single v e) (applySub sub te).
Proof. apply extendSub_applySub. Qed.

Lemma extendSub_composes_witness :
  applySub sub_T2_T1 nestedTE
  = applySub (single (makeTVar "T2") boolTE) (applySub sub_T1 nestedTE).
Proof.
  exact (extendSub_composes sub_T1 (makeTVar "T2") boolTE sub_T2_T1 eq_refl
           nestedTE).
Defined.

(** X10. A successful extension keeps the uniqueness and arity invariants,
    always yields a substitution that satisfies the acyclicity invariant
    (and holds well-formed expressions, under arity), and binds the
    variables of the old substitution and [v], no other. *)
Theorem extendSub_invariants (sub : Sub) (v : TVar) (e : TExp) (r : Sub) :
  extendSub sub v e = Ok r ->
  (invA sub -> invA r) /\
  (invB sub -> invB r /\ wfSub r) /\
  invC r /\
  (forall x, In x (names r) <-> x = var v \/ In x (names sub)).
Proof.
  intros H.
  pose proof (extendSub_ok_checked _ _ _ _ H) as Hc.
  pose proof (extendSub_names _ _ _ _ H) as Hn.
  pose proof (extendSub_result _ _ _ _ H) as Hr.
  assert (HC : forall x t, In (x, t) (bindings r) ->
                 wfTExp t = true /\ occurs (var x) t = false).
  { intros x t Hin. apply (check_ok x t t).
    exact (checkNoOccurrences_ok_pairs _ _ Hc x t Hin). }
  assert (HB : invB sub -> invB r).
  { intros HB. subst r. unfold invB in *.
    destruct (includes (names sub) (var v)); cbn [vars tes List.length];
      rewrite length_map; congruence. }
  split; [|split; [|split]].
  - unfold invA. rewrite Hn. intros HA.
    destruct (includes (names sub) (var v)) eqn:E; [exact HA|].
    apply includes_not_In in E. now constructor.
  - intros HB0. split; [exact (HB HB0)|]. intros t Ht.
    destruct (in_combine_r_exists (vars r) (tes r) t (HB HB0) Ht) as [x Hx].
    apply (HC x t Hx).
  - intros x t Hin. apply (HC x t Hin).
  - intros x. rewrite Hn. destruct (includes (names sub) (var v)) eqn:E.
    + apply includes_In in E. split; [now right|].
      intros [->|Hx]; assumption.
    + cbn. split; intros [Hx|Hx]; auto.
Qed.

Lemma extendSub_invariants_witness : invC sub_T2_T1.
Proof.
  exact (proj1 (proj2 (proj2 (extendSub_invariants sub_T1 (makeTVar "T2")
                                boolTE sub_T2_T1 eq_refl)))).
Defined.

(** X11. Lookup after extension. A variable that was not bound is bound to
    [e]. A variable that was already bound keeps its binding: on a
    substitution that satisfies the arity and acyclicity invariants the
    extension does not replace it by [e]. *)
Theorem extendSub_lookup (sub : Sub) (v : TVar) (e : TExp) (r : Sub) :
  extendSub sub v e = Ok r ->
  (~ In (var v) (names sub) -> subGet r v = e) /\
  (In (var v) (names sub) -> invB sub -> invC sub ->
   subGet r v = subGet sub v).
Proof.
  intros H. pose proof (extendSub_subGet _ _ _ _ H v) as E. split.
  - intros Hn. rewrite E. unfold subGet at 1.
    rewrite lookup_absent, applySub_tsubst.
    + cbn. unfold eqTVar. now rewrite String.eqb_refl.
    + intros x Hx Hc. apply Hn. rewrite <- Hc. unfold names. now apply in_map.
  - intros Hin HB HC. rewrite E.
    destruct (lookup_bound v _ _ HB Hin) as [x [Hx Hv]].
    apply applySub_avoids. intros n [<-|[]]. cbn [single vars].
    rewrite <- Hv. exact (HC x _ Hx).
Qed.

Lemma extendSub_lookup_witness :
  subGet sub_T2_T1 (makeTVar "T2") = boolTE /\
  subGet (mkSub [makeTVar "a"; makeTVar "b"] [boolTE; numTE]) (makeTVar "b")
  = subGet sub_a_b (makeTVar "b").
Proof.
  split.
  - refine (proj1 (extendSub_lookup sub_T1 (makeTVar "T2") boolTE sub_T2_T1
                     eq_refl) _).
    cbn. intros [H|[]]. discriminate.
  - refine (proj2 (extendSub_lookup sub_a_b (makeTVar "b") boolTE
                     (mkSub [makeTVar "a"; makeTVar "b"] [boolTE; numTE])
                     eq_refl) _ eq_refl _).
    + right. now left.
    + intros x t [H|[H|[]]]; injection H as <- <-; reflexivity.
Defined.

(** X12. Extension keeps a substitution normalized when the new right-hand
    side contains none of the variables already bound. *)
Theorem extendSub_normalized (s0 : Sub) (v : TVar) (e : TExp) (s : Sub) :
  normalized s0 -> avoids (names s0) e ->
  extendSub s0 v e = Ok s -> normalized s.
Proof.
  intros HN He H.
  assert (Hv : occurs (var v) e = false).
  { apply extendSub_ok_check in H. now apply check_ok in H. }
  assert (Hnames : forall n, In n (names s) -> n = var v \/ In n (names s0)).
  { intros n Hn. rewrite (extendSub_names _ _ _ _ H) in Hn.
    destruct (includes (names s0) (var v)); [now right|].
    destruct Hn as [<-|Hn]; [now left | now right]. }
  assert (Hold : forall t, In t (tes s0) ->
                   avoids (names s) (applySub (single v e) t)).
  { intros t Ht n Hn.
    destruct (occurs n (applySub (single v e) t)) eqn:Ho; [|reflexivity].
    apply occurs_single in Ho as [[_ Ho]|[Ho Hne]].
    - destruct (Hnames n Hn) as [->|Hn0]; [congruence|].
      rewrite (He n Hn0) in Ho. discriminate.
    - destruct (Hnames n Hn) as [->|Hn0]; [congruence|].
      rewrite (HN t Ht n Hn0) in Ho. discriminate. }
  assert (Hnew : avoids (names s) e).
  { intros n Hn. destruct (Hnames n Hn) as [->|Hn0]; [exact Hv|].
    exact (He n Hn0). }
  pose proof (extendSub_result _ _ _ _ H) as Hr.
  intros t Ht. rewrite Hr in Ht.
  destruct (includes (names s0) (var v)); cbn [tes] in Ht.
  - apply in_map_iff in Ht as [t0 [<- Ht0]]. now apply Hold.
  - destruct Ht as [<-|Ht]; [exact Hnew|].
    apply in_map_iff in Ht as [t0 [<- Ht0]]. now apply Hold.
Qed.

Lemma extendSub_normalized_witness : normalized sub_T2_T1.
Proof.
  refine (extendSub_normalized sub_T1 (makeTVar "T2") boolTE sub_T2_T1
            _ _ eq_refl).
  - intros t [<-|[]] n [<-|[]]. reflexivity.
  - intros n [<-|[]]. reflexivity.
Defined.

(** X13. On a substitution that satisfies the arity invariant and holds
    well-formed expressions, extending by a well-formed expression never
    fails with the bad-type-expression message: the extension succeeds or
    fails with the occur-check message. *)
Theorem extendSub_wf_outcome (s : Sub) (v : TVar) (e : TExp) :
  invB s -> wfSub s -> wfTExp e = true ->
  isOk (extendSub s v e) = negb (isCircular (extendSub s v e)).
Proof.
  intros HB Hwf He.
  assert (E1 : makeSub [v] [e] =
               if occurs (var v) e
               then Failure (OccurCheckError (var v) e)
               else Ok (single v e)).
  { unfold makeSub. cbn [checkNoOccurrences first rest hd tl].
    unfold checkNoOccurrence. rewrite (check_wf v e e He).
    now destruct (occurs (var v) e). }
  unfold extendSub. rewrite E1.
  destruct (occurs (var v) e) eqn:Hv; cbn [bind]; [reflexivity|].
  set (updatedTEs := map (applySub (single v e)) (tes s)).
  assert (HL : List.length (vars s) = List.length updatedTEs)
    by (unfold updatedTEs; rewrite length_map; exact HB).
  assert (HW : forall t, In t updatedTEs -> wfTExp t = true).
  { intros t Ht. apply in_map_iff in Ht as [t0 [<- Ht0]].
    rewrite applySub_tsubst. apply wfTExp_tsubst; [|now apply Hwf].
    intros y. rewrite subGet_single. now destruct (eqTVar v y). }
  assert (HR : forall xs ts,
             checkNoOccurrences xs ts = Ok tt \/
             isCircular (checkNoOccurrences xs ts) = true ->
             isOk (makeSub xs ts) = negb (isCircular (makeSub xs ts))).
  { intros xs ts [Hc|Hc]; unfold makeSub.
    - now rewrite Hc.
    - now destruct (checkNoOccurrences xs ts) as [[]|[]]. }
  destruct (includes (map var (vars s)) (var v)); apply HR.
  - destruct (checkNoOccurrences_wf _ _ HL HW) as [[Hc _]|[Hc _]]; auto.
  - cbn [app checkNoOccurrences first rest hd tl].
    unfold checkNoOccurrence. rewrite (check_wf v e e He), Hv.
    cbn [bind].
    destruct (checkNoOccurrences_wf _ _ HL HW) as [[Hc _]|[Hc _]]; auto.
Qed.

Lemma extendSub_wf_outcome_witness :
  isOk (extendSub sub_x_v (makeTVar "v") (tv "x"))
  = negb (isCircular (extendSub sub_x_v (makeTVar "v") (tv "x"))).
Proof.
  refine (extendSub_wf_outcome sub_x_v (makeTVar "v") (tv "x")
            eq_refl _ eq_refl).
  intros t [<-|[]]. reflexivity.
Defined.

(* ================================================================== *)
(** ** Further properties: composition *)

Lemma combine_names : forall xs ts sub r,
  combine sub xs ts = Ok r ->
  forall x, In x (names r) <-> In x (names sub) \/ In x (map var xs).
Proof.
  induction xs as [|a xs IH]; intros ts sub r H x; cbn in H.
  - injection H as <-. cbn. tauto.
  - destruct (extendSub sub a (first ts)) as [ext|m] eqn:E; [|discriminate].
    cbn [bind] in H. rewrite (IH _ _ _ H x).
    pose proof (extendSub_names _ _ _ _ E) as Hn. rewrite Hn.
    destruct (includes (names sub) (var a)) eqn:Ei; cbn.
    + apply includes_In in Ei. split; [tauto|].
      intros [Hx|[<-|Hx]]; tauto.
    + split; [intros [[<-|Hx]|Hx]; tauto | intros [Hx|[<-|Hx]]; tauto].
Qed.

Lemma combine_keeps : forall xs ts sub r,
  combine sub xs ts = Ok r ->
  (invA sub -> invA r) /\ (invB sub -> invB r) /\ (invC sub -> invC r).
Proof.
  induction xs as [|a xs IH]; intros ts sub r H; cbn in H.
  - injection H as <-. tauto.
  - destruct (extendSub sub a (first ts)) as [ext|m] eqn:E; [|discriminate].
    cbn [bind] in H. destruct (IH _ _ _ H) as [HA [HB HC]].
    assert (EA : invA sub -> invA ext).
    { intros HA0. unfold invA. rewrite (extendSub_names _ _ _ _ E).
      destruct (includes (names sub) (var a)) eqn:Ei; [exact HA0|].
      apply includes_not_In in Ei. now constructor. }
    assert (EB : invB sub -> invB ext).
    { intros HB0. rewrite (extendSub_result _ _ _ _ E). unfold invB in *.
      destruct (includes (names sub) (var a)); cbn [vars tes List.length];
        rewrite length_map; congruence. }
    assert (EC : invC ext).
    { intros y t Hin. apply (check_ok y t t).
      exact (checkNoOccurrences_ok_pairs _ _
               (extendSub_ok_checked _ _ _ _ E) y t Hin). }
    split; [|split]; auto.
Qed.

(** X14. What [combineSub] computes on two non-empty substitutions: the
    first substitution, followed by the bindings of the second applied one
    after the other in their stored order. *)
Theorem combineSub_sequential (sub1 sub2 r : Sub) :
  isEmptySub sub1 = false -> isEmptySub sub2 = false ->
  combineSub sub1 sub2 = Ok r ->
  forall te, applySub r te = applySeq (vars sub2) (tes sub2) (applySub sub1 te).
Proof.
  intros E1 E2 H te. unfold combineSub in H. rewrite E1, E2 in H.
  exact (combine_applySeq _ _ _ _ H te).
Qed.

Lemma combineSub_sequential_witness :
  applySub sub_z_y_x (tv "x")
  = applySeq (vars sub_y_z) (tes sub_y_z) (applySub sub_x (tv "x")).
Proof.
  exact (combineSub_sequential sub_x sub_y_z sub_z_y_x eq_refl eq_refl eq_refl
           (tv "x")).
Defined.

(** X15. The composition law holds when the second substitution satisfies
    the arity invariant and is normalized: the result of [combineSub]
    applies like the first substitution followed by the second. *)
Theorem combineSub_law (sub1 sub2 r : Sub) :
  invB sub2 -> normalized sub2 ->
  combineSub sub1 sub2 = Ok r ->
  forall te, applySub r te = applySub sub2 (applySub sub1 te).
Proof. apply combineSub_composition. Qed.

Lemma combineSub_law_witness :
  combineSub sub_T1 (mkSub [makeTVar "T2"] [boolTE]) = Ok sub_T2_T1 /\
  applySub sub_T2_T1 nestedTE
  = applySub (mkSub [makeTVar "T2"] [boolTE]) (applySub sub_T1 nestedTE).
Proof.
  split; [reflexivity|].
  refine (combineSub_law sub_T1 (mkSub [makeTVar "T2"] [boolTE]) sub_T2_T1
            eq_refl _ eq_refl nestedTE).
  intros t [<-|[]] n [<-|[]]. reflexivity.
Defined.

(** X16. A successful [combineSub] binds the variables of the two
    substitutions, no other. *)
Theorem combineSub_names (sub1 sub2 r : Sub) :
  combineSub sub1 sub2 = Ok r ->
  forall x, In x (names r) <-> In x (names sub1) \/ In x (names sub2).
Proof.
  intros H x. unfold combineSub in H.
  destruct (isEmptySub sub1) eqn:E1.
  - injection H as <-. apply isEmptySub_true in E1. subst sub1. cbn. tauto.
  - destruct (isEmptySub sub2) eqn:E2.
    + injection H as <-. apply isEmptySub_true in E2. subst sub2. cbn. tauto.
    + exact (combine_names _ _ _ _ H x).
Qed.

Lemma combineSub_names_witness :
  In "y" (names sub_z_y_x) <-> In "y" (names sub_x) \/ In "y" (names sub_y_z).
Proof.
  exact (combineSub_names sub_x sub_y_z sub_z_y_x eq_refl "y").
Defined.

(** X17. A successful [combineSub] of two substitutions that satisfy the
    uniqueness, arity and acyclicity invariants satisfies them. *)
Theorem combineSub_invariants (sub1 sub2 r : Sub) :
  invA sub1 -> invB sub1 -> invC sub1 ->
  invA sub2 -> invB sub2 -> invC sub2 ->
  combineSub sub1 sub2 = Ok r ->
  invA r /\ invB r /\ invC r.
Proof.
  intros A1 B1 C1 A2 B2 C2 H. unfold combineSub in H.
  destruct (isEmptySub sub1); [injection H as <-; tauto|].
  destruct (isEmptySub sub2); [injection H as <-; tauto|].
  destruct (combine_keeps _ _ _ _ H) as [HA [HB HC]]. auto.
Qed.

Lemma combineSub_invariants_witness :
  invA sub_z_y_x /\ invB sub_z_y_x /\ invC sub_z_y_x.
Proof.
  refine (combineSub_invariants sub_x sub_y_z sub_z_y_x _ eq_refl _
            _ eq_refl _ eq_refl).
  - repeat constructor. cbn. tauto.
  - intros x t [H|[]]. injection H as <- <-. reflexivity.
  - repeat constructor; cbn; intuition discriminate.
  - intros x t [H|[H|[]]]; injection H as <- <-; reflexivity.
Defined.
